(** * Position aggregation hooks of [src/hooks/useV3Positions.ts]

    A shallow embedding of the read-model hooks [useV3PositionsFromTokenIds],
    [useV3PositionFromTokenId], [useV3Positions] and [useV3PositionsForPool],
    together with the properties the specification states about them.

    Conventions of the embedding:
    - a value that may be [undefined] (or [null]) is an [option];
    - a [BigNumber] and a JavaScript integer number are both a [Z];
    - an evaluation that may throw lives in the [js] monad;
    - a [useMemo] body is the pure function of its dependencies;
    - the collaborators whose source is not part of this file (the multicall
      hooks, [useAllIncentives], [useDepositedTokenIds]) are section
      variables: nothing is assumed about what they return. *)

From stdpp Require Import base option list sorting strings pretty gmap.
From Stdlib Require Import ZArith Lia.

Local Open Scope Z_scope.

(** ** Evaluation outcomes *)

Inductive Exn : Type :=
  | TypeError      (* property read on [undefined] *)
  | NumericFault.  (* [BigNumber.toNumber] outside the safe integer range *)

Inductive js (A : Type) : Type :=
  | Return (a : A)
  | Throw (e : Exn).
Arguments Return {A} a.
Arguments Throw {A} e.

Global Instance js_ret : MRet js := λ A a, Return a.
Global Instance js_bind : MBind js := λ A B f m,
  match m with
  | Return a => f a
  | Throw e => Throw e
  end.

(** [Array.prototype.map] with a callback that may throw: the callback runs
    on the elements in index order and receives the index. *)
Fixpoint mapi_from {A B} (f : A → nat → js B) (i : nat) (l : list A) : js (list B) :=
  match l with
  | [] => Return []
  | x :: l' => y ← f x i; ys ← mapi_from f (S i) l'; Return (y :: ys)
  end.

Definition array_map {A B} (f : A → nat → js B) (l : list A) : js (list B) :=
  mapi_from f 0%nat l.

(** Truthiness of a possibly undefined string: [undefined] and the empty
    string are falsy. *)
Definition truthy (s : option string) : bool :=
  match s with
  | None => false
  | Some s => negb (String.eqb s "")
  end.

(** ** Data *)

(** [AddressZero] of [@ethersproject/constants]. *)
Definition AddressZero : string := "0x0000000000000000000000000000000000000000".

(** [Number.MAX_SAFE_INTEGER]. *)
Definition MAX_SAFE_INTEGER : Z := 2 ^ 53 - 1.

(** The per-call state the multicall hooks return; of its fields the hooks
    read [result], [loading] and [error]. *)
Module CallState.
Record t (R : Type) : Type := mk {
  result : option R;
  loading : bool;
  error : bool;
}.
Arguments mk {R} _ _ _.
Arguments result {R} _.
Arguments loading {R} _.
Arguments error {R} _.
End CallState.

(** Decoded return values. [ownerOf] returns [[owner]] and [deposits] returns
    [[owner, numberOfStakes, tickLower, tickUpper]]; the hooks read item 0
    only, an address. *)
Module AddressResult.
Record t : Type := mk { item0 : string }.
End AddressResult.

(** [balanceOf] and [tokenOfOwnerByIndex] return a single [BigNumber]. *)
Module UintResult.
Record t : Type := mk { item0 : Z }.
End UintResult.

(** The named outputs of [positions(tokenId)]. A tick bound is [None] when
    its [typeof] is not ['number']. *)
Module PositionsResult.
Record t : Type := mk {
  nonce : Z;
  operator : string;
  token0 : string;
  token1 : string;
  fee : Z;
  tickLower : option Z;
  tickUpper : option Z;
  liquidity : Z;
  feeGrowthInside0LastX128 : Z;
  feeGrowthInside1LastX128 : Z;
  tokensOwed0 : Z;
  tokensOwed1 : Z;
}.
End PositionsResult.

(** [Token] and [Pool] of the SDK, with the fields the hooks read. *)
Module Token.
Record t : Type := mk { address : string }.
End Token.

Module Pool.
Record t : Type := mk {
  token0 : Token.t;
  token1 : Token.t;
  fee : Z;
  tickCurrent : Z;
}.
End Pool.

(** The parameter type of [toPoolKey]:
    [Pool | { token0: string | Token; token1: string | Token; fee: number }]. *)
Module PoolKey.
Inductive token : Type :=
  | Str (s : string)
  | Tok (t : Token.t).
Record t : Type := mk {
  token0 : token;
  token1 : token;
  fee : Z;
}.
Definition ofPool (p : Pool.t) : t :=
  mk (Tok (Pool.token0 p)) (Tok (Pool.token1 p)) (Pool.fee p).
End PoolKey.

(** [PositionDetails], over the type of incentive records. [owner] is
    whichever of the two owner values the hook selects. *)
Module PositionDetails.
Record t (I : Type) : Type := mk {
  token0 : string;
  token1 : string;
  fee : Z;
  tokenId : Z;
  owner : option string;
  depositedInStaker : bool;
  feeGrowthInside0LastX128 : Z;
  feeGrowthInside1LastX128 : Z;
  liquidity : Z;
  nonce : Z;
  operator : string;
  tickLower : option Z;
  tickUpper : option Z;
  tokensOwed0 : Z;
  tokensOwed1 : Z;
  incentives : list I;
}.
Arguments mk {I}.
Arguments token0 {I} _.
Arguments token1 {I} _.
Arguments fee {I} _.
Arguments tokenId {I} _.
Arguments owner {I} _.
Arguments depositedInStaker {I} _.
Arguments feeGrowthInside0LastX128 {I} _.
Arguments feeGrowthInside1LastX128 {I} _.
Arguments liquidity {I} _.
Arguments nonce {I} _.
Arguments operator {I} _.
Arguments tickLower {I} _.
Arguments tickUpper {I} _.
Arguments tokensOwed0 {I} _.
Arguments tokensOwed1 {I} _.
Arguments incentives {I} _.
End PositionDetails.

Module UseV3PositionsResults.
Record t (I : Type) : Type := mk {
  loading : bool;
  error : bool;
  positions : option (list (PositionDetails.t I));
}.
Arguments mk {I}.
Arguments loading {I} _.
Arguments error {I} _.
Arguments positions {I} _.
End UseV3PositionsResults.

Module UseV3PositionResults.
Record t (I : Type) : Type := mk {
  loading : bool;
  position : option (PositionDetails.t I);
}.
Arguments mk {I}.
Arguments loading {I} _.
Arguments position {I} _.
End UseV3PositionResults.

Module PositionsForPoolResults.
Record t (I : Type) : Type := mk {
  loading : bool;
  inRangePositions : option (list (PositionDetails.t I));
  outOfRangePositions : option (list (PositionDetails.t I));
}.
Arguments mk {I}.
Arguments loading {I} _.
Arguments inRangePositions {I} _.
Arguments outOfRangePositions {I} _.
End PositionsForPoolResults.

(** What [useAllIncentives] returns. *)
Module AllIncentives.
Record t (I : Type) : Type := mk {
  incentives : option (list I);
  loading : bool;
}.
Arguments mk {I}.
Arguments incentives {I} _.
Arguments loading {I} _.
End AllIncentives.

(** What [useDepositedTokenIds] returns, over the type of its state enum. *)
Module DepositedTokenIds.
Record t (S : Type) : Type := mk {
  state : S;
  tokenIds : option (list Z);
}.
Arguments mk {S}.
Arguments state {S} _.
Arguments tokenIds {S} _.
End DepositedTokenIds.

(** The [account] argument: [string | null | undefined]. *)
Inductive Account : Type :=
  | Null
  | Undefined
  | Addr (a : string).

(** ** [toPoolKey] *)

Definition tokenAddress (tk : PoolKey.token) : string :=
  match tk with
  | PoolKey.Str s => s
  | PoolKey.Tok t => Token.address t
  end.

Definition toPoolKey (pool : PoolKey.t) : string :=
  tokenAddress (PoolKey.token0 pool) +:+ "-" +:+
  tokenAddress (PoolKey.token1 pool) +:+ "-" +:+
  pretty (PoolKey.fee pool).

(** A token address is a hexadecimal string; of that, the properties use
    only that it holds no hyphen, the separator of [toPoolKey]. *)
Definition hyphen : Ascii.ascii := Ascii.ascii_of_nat 45.

Fixpoint hyphenFree (s : string) : bool :=
  match s with
  | EmptyString => true
  | String c s' => negb (Ascii.eqb c hyphen) && hyphenFree s'
  end.

Section Hooks.

(** The incentive records of [useAllIncentives] are opaque apart from their
    [pool]; the state enum of [useDepositedTokenIds] is opaque apart from
    its [LOADING] member. *)
Context {Incentive : Type} (incentivePool : Incentive → Pool.t).
Context {DepositedTokenIdsState : Type} `{EqDecision DepositedTokenIdsState}
        (LOADING : DepositedTokenIdsState).

(** The collaborators. Each multicall variable stands for
    [useSingleContractMultipleData] (or [useSingleCallResult]) applied to
    one contract and one method. *)
Variable positionsCalls : list (list Z) → list (CallState.t PositionsResult.t).
Variable ownerOfCalls : list (list Z) → list (CallState.t AddressResult.t).
Variable depositsCalls : list (list Z) → list (CallState.t AddressResult.t).
Variable tokenOfOwnerByIndexCalls : list (string * Z) → list (CallState.t UintResult.t).
Variable balanceOfCall : option string → CallState.t UintResult.t.
Variable useAllIncentives : AllIncentives.t Incentive.
Variable useDepositedTokenIds : Account → DepositedTokenIds.t DepositedTokenIdsState.

Abbreviation Position := (PositionDetails.t Incentive).

(** *** [useV3PositionsFromTokenIds] *)

Definition inputs (tokenIds : option (list Z)) : list (list Z) :=
  match tokenIds with
  | Some tokenIds => map (λ tokenId, [tokenId]) tokenIds
  | None => []
  end.

(** The memo of lines 33-39; [states.some] over the three batches is
    written out, in the order of the array literal. *)
Definition loading_error
    (positionInfos : list (CallState.t PositionsResult.t))
    (tokenIdOwners depositOwners : list (CallState.t AddressResult.t))
    (incentivesLoading : bool) : bool * bool :=
  (incentivesLoading ||
     (existsb CallState.loading positionInfos ||
      existsb CallState.loading tokenIdOwners ||
      existsb CallState.loading depositOwners),
   existsb CallState.error positionInfos ||
   existsb CallState.error tokenIdOwners ||
   existsb CallState.error depositOwners).

(** The memo of lines 41-50. The accumulator object is a finite map: every
    key [toPoolKey] builds contains a hyphen, so none meets a property
    inherited from [Object.prototype]. *)
Definition incentivesByPoolKey (incentives : option (list Incentive))
    : gmap string (list Incentive) :=
  match incentives with
  | Some incentives =>
      fold_left
        (λ (memo : gmap string (list Incentive)) incentive,
           let key := toPoolKey (PoolKey.ofPool (incentivePool incentive)) in
           <[key := default [] (memo !! key) ++ [incentive]]> memo)
        incentives ∅
  | None => ∅
  end.

(** [calls[i].result]: reading [result] off a missing entry throws. *)
Definition resultAt {R} (calls : list (CallState.t R)) (i : nat) : js (option R) :=
  match calls !! i with
  | Some call => Return (CallState.result call)
  | None => Throw TypeError
  end.

(** The callback of [tokenIds.map] (lines 55-83); [null] is [None]. *)
Definition toPosition
    (tokenIdOwners : list (CallState.t AddressResult.t))
    (positionInfos : list (CallState.t PositionsResult.t))
    (depositOwners : list (CallState.t AddressResult.t))
    (byPoolKey : gmap string (list Incentive))
    (tokenId : Z) (i : nat) : js (option Position) :=
  ownerResult ← resultAt tokenIdOwners i;
  let owner := AddressResult.item0 <$> ownerResult in
  positionInfo ← resultAt positionInfos i;
  depositResult ← resultAt depositOwners i;
  let depositOwner := AddressResult.item0 <$> depositResult in
  match positionInfo with
  | None => Return None
  | Some positionInfo =>
      if negb (truthy owner) then Return None
      else
        let depositedInStaker :=
          truthy depositOwner && bool_decide (depositOwner ≠ Some AddressZero) in
        let poolKey :=
          PoolKey.mk (PoolKey.Str (PositionsResult.token0 positionInfo))
                     (PoolKey.Str (PositionsResult.token1 positionInfo))
                     (PositionsResult.fee positionInfo) in
        Return (Some
          {| PositionDetails.token0 := PositionsResult.token0 positionInfo;
             PositionDetails.token1 := PositionsResult.token1 positionInfo;
             PositionDetails.fee := PositionsResult.fee positionInfo;
             PositionDetails.tokenId := tokenId;
             PositionDetails.owner := if depositedInStaker then depositOwner else owner;
             PositionDetails.depositedInStaker := depositedInStaker;
             PositionDetails.feeGrowthInside0LastX128 :=
               PositionsResult.feeGrowthInside0LastX128 positionInfo;
             PositionDetails.feeGrowthInside1LastX128 :=
               PositionsResult.feeGrowthInside1LastX128 positionInfo;
             PositionDetails.liquidity := PositionsResult.liquidity positionInfo;
             PositionDetails.nonce := PositionsResult.nonce positionInfo;
             PositionDetails.operator := PositionsResult.operator positionInfo;
             PositionDetails.tickLower := PositionsResult.tickLower positionInfo;
             PositionDetails.tickUpper := PositionsResult.tickUpper positionInfo;
             PositionDetails.tokensOwed0 := PositionsResult.tokensOwed0 positionInfo;
             PositionDetails.tokensOwed1 := PositionsResult.tokensOwed1 positionInfo;
             PositionDetails.incentives := default [] (byPoolKey !! toPoolKey poolKey) |})
  end.

(** [.filter((p) => Boolean(p))]: a position object is truthy, [null] is not. *)
Definition filterNull (ps : list (option Position)) : list Position :=
  omap id ps.

(** The memo of lines 52-87; an array is truthy, so [tokenIds] passes the
    guard exactly when it is defined. *)
Definition positions (loading error : bool) (tokenIds : option (list Z))
    (tokenIdOwners : list (CallState.t AddressResult.t))
    (positionInfos : list (CallState.t PositionsResult.t))
    (depositOwners : list (CallState.t AddressResult.t))
    (byPoolKey : gmap string (list Incentive)) : js (option (list Position)) :=
  match tokenIds with
  | Some tokenIds =>
      if negb loading && negb error then
        ps ← array_map (toPosition tokenIdOwners positionInfos depositOwners byPoolKey)
                       tokenIds;
        Return (Some (filterNull ps))
      else Return None
  | None => Return None
  end.

Definition useV3PositionsFromTokenIds (tokenIds : option (list Z))
    : js (UseV3PositionsResults.t Incentive) :=
  let positionInfos := positionsCalls (inputs tokenIds) in
  let tokenIdOwners := ownerOfCalls (inputs tokenIds) in
  let depositOwners := depositsCalls (inputs tokenIds) in
  let incentives := AllIncentives.incentives useAllIncentives in
  let incentivesLoading := AllIncentives.loading useAllIncentives in
  let '(loading, error) :=
    loading_error positionInfos tokenIdOwners depositOwners incentivesLoading in
  let byPoolKey := incentivesByPoolKey incentives in
  positions ← positions loading error tokenIds tokenIdOwners positionInfos
                        depositOwners byPoolKey;
  Return (UseV3PositionsResults.mk loading error positions).

(** *** [useV3PositionFromTokenId] *)

Definition useV3PositionFromTokenId (tokenId : option Z)
    : js (UseV3PositionResults.t Incentive) :=
  position ← useV3PositionsFromTokenIds ((λ tokenId, [tokenId]) <$> tokenId);
  Return (UseV3PositionResults.mk
            (UseV3PositionsResults.loading position)
            (UseV3PositionsResults.positions position ≫= head)).

(** *** [useV3Positions] *)

(** [BigNumber.toNumber]: faults outside the safe integer range. *)
Definition toNumber (b : Z) : js Z :=
  if bool_decide (- MAX_SAFE_INTEGER ≤ b ≤ MAX_SAFE_INTEGER) then Return b
  else Throw NumericFault.

(** [account ?? undefined]. *)
Definition orUndefined (account : Account) : option string :=
  match account with
  | Addr a => Some a
  | Null | Undefined => None
  end.

(** The loop of lines 122-124, entered with counter [i] and the requests
    pushed so far. [fuel] bounds the number of iterations; the loop runs
    [accountBalance - i] times, so that much fuel is enough. *)
Fixpoint pushTokenRequests (fuel : nat) (account : string) (accountBalance i : Z)
    (tokenRequests : list (string * Z)) : list (string * Z) :=
  match fuel with
  | O => tokenRequests
  | S fuel =>
      if i <? accountBalance then
        pushTokenRequests fuel account accountBalance (i + 1)
          (tokenRequests ++ [(account, i)])
      else tokenRequests
  end.

(** The memo of lines 119-128: both [accountBalance] and [account] must be
    truthy. *)
Definition tokenIdsArgs (account : Account) (accountBalance : option Z)
    : list (string * Z) :=
  match accountBalance, account with
  | Some accountBalance, Addr account =>
      if negb (accountBalance =? 0) && truthy (Some account) then
        pushTokenRequests (Z.to_nat accountBalance) account accountBalance 0 []
      else []
  | _, _ => []
  end.

Definition someTokenIdsLoading (depositedTokenIdsState : DepositedTokenIdsState)
    (tokenIdResults : list (CallState.t UintResult.t)) : bool :=
  bool_decide (depositedTokenIdsState = LOADING) ||
  existsb CallState.loading tokenIdResults.

(** [BigNumber.from] keeps the numeric value. *)
Definition BigNumber_from (n : Z) : Z := n.

(** The memo of lines 138-147. *)
Definition tokenIds (account : Account) (depositedTokenIds : option (list Z))
    (tokenIdResults : list (CallState.t UintResult.t)) : list Z :=
  if truthy (orUndefined account) then
    map (λ result, BigNumber_from (UintResult.item0 result))
        (omap id (map CallState.result tokenIdResults))
    ++ default [] (map BigNumber_from <$> depositedTokenIds)
  else [].

(** [balanceResult?.[0]?.toNumber()] (line 117). *)
Definition accountBalance (balanceResult : option UintResult.t) : js (option Z) :=
  match balanceResult with
  | Some balanceResult => n ← toNumber (UintResult.item0 balanceResult); Return (Some n)
  | None => Return None
  end.

Definition useV3Positions (account : Account) : js (UseV3PositionsResults.t Incentive) :=
  let balance := balanceOfCall (orUndefined account) in
  let balanceLoading := CallState.loading balance in
  accountBalance ← accountBalance (CallState.result balance);
  let deposited := useDepositedTokenIds account in
  let tokenIdResults := tokenOfOwnerByIndexCalls (tokenIdsArgs account accountBalance) in
  let tokenIds :=
    tokenIds account (DepositedTokenIds.tokenIds deposited) tokenIdResults in
  r ← useV3PositionsFromTokenIds (Some tokenIds);
  Return (UseV3PositionsResults.mk
            (someTokenIdsLoading (DepositedTokenIds.state deposited) tokenIdResults
             || balanceLoading || UseV3PositionsResults.loading r)
            (UseV3PositionsResults.error r)
            (UseV3PositionsResults.positions r)).

(** *** [useV3PositionsForPool] *)

Definition relevant (pool : Pool.t) (p : Position) : bool :=
  String.eqb (PositionDetails.token0 p) (Token.address (Pool.token0 pool)) &&
  String.eqb (PositionDetails.token1 p) (Token.address (Pool.token1 pool)) &&
  (PositionDetails.fee p =? Pool.fee pool).

(** The predicate of the [inRangePositions] filter (lines 188-193). *)
Definition inRange (pool : Pool.t) (p : Position) : bool :=
  let below := (λ tickLower, Pool.tickCurrent pool <? tickLower)
                 <$> PositionDetails.tickLower p in
  let above := (λ tickUpper, Pool.tickCurrent pool >=? tickUpper)
                 <$> PositionDetails.tickUpper p in
  match below, above with
  | Some below, Some above => negb below && negb above
  | _, _ => false
  end.

Definition relevantPositions (pool : Pool.t) (positions : list Position) : list Position :=
  List.filter (relevant pool) positions.

Definition inRangePositions (pool : Pool.t) (positions : list Position) : list Position :=
  List.filter (inRange pool) (relevantPositions pool positions).

Definition outOfRangePositions (pool : Pool.t) (positions : list Position) : list Position :=
  List.filter (λ p, negb (inRange pool p)) (relevantPositions pool positions).

Definition useV3PositionsForPool (account : Account) (pool : option Pool.t)
    : js (PositionsForPoolResults.t Incentive) :=
  r ← useV3Positions account;
  let positionsLoading := UseV3PositionsResults.loading r in
  match UseV3PositionsResults.positions r, pool with
  | Some positions, Some pool =>
      if negb positionsLoading then
        Return (PositionsForPoolResults.mk false None None)
      else
        Return (PositionsForPoolResults.mk false
                  (Some (inRangePositions pool positions))
                  (Some (outOfRangePositions pool positions)))
  | _, _ => Return (PositionsForPoolResults.mk false None None)
  end.

End Hooks.

(** ** A concrete chain state

    A small instance of the collaborators, used to evaluate the hooks: three
    position tokens, of which token 1 is held directly, token 2 is deposited
    in the staker and token 3 has no call results; two incentive programs on
    the pool of tokens 1 and 2 and one on another pool. *)
Module Sample.

Definition alice : string := "0x00000000000000000000000000000000000a11ce".
Definition stakerContract : string := "0x0000000000000000000000000000000000057a4e".
Definition tokenA : string := "0x000000000000000000000000000000000000000a".
Definition tokenB : string := "0x000000000000000000000000000000000000000b".
Definition tokenC : string := "0x000000000000000000000000000000000000000c".

Definition poolAB : Pool.t :=
  Pool.mk (Token.mk tokenA) (Token.mk tokenB) 3000 150.
Definition poolAC : Pool.t :=
  Pool.mk (Token.mk tokenA) (Token.mk tokenC) 500 0.

(** An incentive record: its pool and a reward amount. *)
Definition Incentive : Type := Pool.t * Z.
Definition incentivePool : Incentive → Pool.t := fst.

Inductive DepositedTokenIdsState : Type := LOADING | LOADED.
Global Instance DepositedTokenIdsState_eq_dec : EqDecision DepositedTokenIdsState.
Proof. solve_decision. Defined.

Definition info (lower upper : option Z) : PositionsResult.t :=
  PositionsResult.mk 0 AddressZero tokenA tokenB 3000 lower upper 1000 0 0 0 0.

Definition done {R} (r : option R) : CallState.t R := CallState.mk r false false.

Definition positionsCall (input : list Z) : CallState.t PositionsResult.t :=
  match input with
  | [1] => done (Some (info (Some 100) (Some 200)))
  | [2] => done (Some (info None (Some 200)))
  | _ => done None
  end.

Definition ownerOfCall (input : list Z) : CallState.t AddressResult.t :=
  match input with
  | [1] => done (Some (AddressResult.mk alice))
  | [2] => done (Some (AddressResult.mk stakerContract))
  | _ => done None
  end.

Definition depositsCall (input : list Z) : CallState.t AddressResult.t :=
  match input with
  | [2] => done (Some (AddressResult.mk alice))
  | _ => done (Some (AddressResult.mk AddressZero))
  end.

Definition positionsCalls : list (list Z) → list (CallState.t PositionsResult.t) :=
  map positionsCall.
Definition ownerOfCalls : list (list Z) → list (CallState.t AddressResult.t) :=
  map ownerOfCall.
Definition depositsCalls : list (list Z) → list (CallState.t AddressResult.t) :=
  map depositsCall.

(** [alice] holds three tokens directly: tokens 1 and 3, and one whose
    request is still loading. *)
Definition tokenOfOwnerByIndexCall (input : string * Z) : CallState.t UintResult.t :=
  match input with
  | (_, 0) => done (Some (UintResult.mk 1))
  | (_, 1) => done (Some (UintResult.mk 3))
  | (_, 2) => CallState.mk None true false
  | _ => done None
  end.
Definition tokenOfOwnerByIndexCalls
    : list (string * Z) → list (CallState.t UintResult.t) :=
  map tokenOfOwnerByIndexCall.

Definition balanceOfCall (account : option string) : CallState.t UintResult.t :=
  match account with
  | Some _ => done (Some (UintResult.mk 3))
  | None => done None
  end.

Definition rewardsAB1 : Incentive := (poolAB, 10).
Definition rewardsAC : Incentive := (poolAC, 20).
Definition rewardsAB2 : Incentive := (poolAB, 30).

Definition useAllIncentives : AllIncentives.t Incentive :=
  AllIncentives.mk (Some [rewardsAB1; rewardsAC; rewardsAB2]) false.

Definition useDepositedTokenIds (account : Account)
    : DepositedTokenIds.t DepositedTokenIdsState :=
  match account with
  | Addr _ => DepositedTokenIds.mk LOADED (Some [2])
  | _ => DepositedTokenIds.mk LOADED None
  end.

Definition fromTokenIds :=
  useV3PositionsFromTokenIds incentivePool positionsCalls ownerOfCalls depositsCalls
    useAllIncentives.

Definition byOwner :=
  useV3Positions incentivePool LOADING positionsCalls ownerOfCalls depositsCalls
    tokenOfOwnerByIndexCalls balanceOfCall useAllIncentives useDepositedTokenIds.

Definition forPool :=
  useV3PositionsForPool incentivePool LOADING positionsCalls ownerOfCalls depositsCalls
    tokenOfOwnerByIndexCalls balanceOfCall useAllIncentives useDepositedTokenIds.

(** The positions of tokens 1 and 2 as the hooks build them. *)
Definition position (tokenId : Z) (deposited : bool) (lower upper : option Z)
    : PositionDetails.t Incentive :=
  PositionDetails.mk tokenA tokenB 3000 tokenId (Some alice) deposited 0 0 1000 0
    AddressZero lower upper 0 0 [rewardsAB1; rewardsAB2].
Definition position1 : PositionDetails.t Incentive :=
  position 1 false (Some 100) (Some 200).
Definition position2 : PositionDetails.t Incentive :=
  position 2 true None (Some 200).

End Sample.

(** The property names every object inherits from [Object.prototype]; a
    lookup [memo[key]] with one of them would not read the map. *)
Definition objectPrototypeKeys : list string :=
  [ "constructor"; "__proto__"; "hasOwnProperty"; "isPrototypeOf";
    "propertyIsEnumerable"; "toLocaleString"; "toString"; "valueOf";
    "__defineGetter__"; "__defineSetter__"; "__lookupGetter__"; "__lookupSetter__" ].

(** Two more collaborator states: a multicall hook without a contract, which
    returns no call state whatever the inputs, and a balance beyond the safe
    integer range. *)
Module Degenerate.

Definition noCalls {A R} (inputs : list A) : list (CallState.t R) := [].

Definition fromTokenIds :=
  useV3PositionsFromTokenIds Sample.incentivePool noCalls noCalls noCalls
    Sample.useAllIncentives.

Definition hugeBalanceOfCall (account : option string) : CallState.t UintResult.t :=
  CallState.mk (Some (UintResult.mk (2 ^ 53))) false false.

Definition byOwner :=
  useV3Positions Sample.incentivePool Sample.LOADING Sample.positionsCalls
    Sample.ownerOfCalls Sample.depositsCalls Sample.tokenOfOwnerByIndexCalls
    hugeBalanceOfCall Sample.useAllIncentives Sample.useDepositedTokenIds.

Definition forPool :=
  useV3PositionsForPool Sample.incentivePool Sample.LOADING Sample.positionsCalls
    Sample.ownerOfCalls Sample.depositsCalls Sample.tokenOfOwnerByIndexCalls
    hugeBalanceOfCall Sample.useAllIncentives Sample.useDepositedTokenIds.

End Degenerate.

(** ** The wallet snippet

    [aptosSwap] and [accountBalance] are [async]: each returns a promise,
    modelled by the way it settles. The wallet object [window.aptos], the
    receiver [this] and [parseInt] are parameters. *)
Module Aptos.

(** Why a promise is rejected: a property was read on [undefined] or [null]
    (a [TypeError]), or an awaited collaborator rejected. *)
Inductive Reason (E : Type) : Type :=
  | PropertyOfNullish
  | Collaborator (e : E).
Arguments PropertyOfNullish {E}.
Arguments Collaborator {E} e.

Inductive Settled (E A : Type) : Type :=
  | Fulfilled (a : A)
  | Rejected (r : Reason E).
Arguments Fulfilled {E A} a.
Arguments Rejected {E A} r.

Inductive Nullable (A : Type) : Type :=
  | JsNull
  | JsUndefined
  | Present (a : A).
Arguments JsNull {A}.
Arguments JsUndefined {A}.
Arguments Present {A} a.

(** The part of an account resource that [accountBalance] reads:
    [resource['data']['coin']['value']]. *)
Record Coin (V : Type) : Type := mkCoin { value : V }.
Arguments mkCoin {V} _.
Arguments value {V} _.
Record Data (V : Type) : Type := mkData { coin : Nullable (Coin V) }.
Arguments mkData {V} _.
Arguments coin {V} _.
Record Resource (V : Type) : Type := mkResource { data : Nullable (Data V) }.
Arguments mkResource {V} _.
Arguments data {V} _.

(** The receiver of [accountBalance]. *)
Record Client (E V : Type) : Type := mkClient {
  accountResource : string → string → Settled E (Nullable (Resource V));
}.
Arguments mkClient {E V} _.
Arguments accountResource {E V} _ _ _.

(** The transaction dictionary of [aptosSwap]. *)
Record Transaction : Type := mkTransaction {
  type : string;
  function : string;
  type_arguments : list string;
  arguments : string * Z;
}.

(** The wallet extension, [window.aptos]: what [account()] settles to, and
    what [signAndSubmitTransaction] settles to on a transaction. *)
Record Wallet (E R : Type) : Type := mkWallet {
  account : Settled E string;
  signAndSubmitTransaction : Transaction → Settled E R;
}.
Arguments mkWallet {E R} _ _.
Arguments account {E R} _.
Arguments signAndSubmitTransaction {E R} _ _.

(** What a run does besides settling, in order. *)
Inductive Event : Type :=
  | Logged (message : string)
  | AccountAsked
  | Submitted (transaction : Transaction).

(** [aptosSwap]: the events of the run and how the returned promise
    settles. The response of the wallet is not used. *)
Definition aptosSwap {E R} (aptos : Nullable (Wallet E R)) : list Event * Settled E unit :=
  let log := [Logged "Swapping on Aptos"] in
  match aptos with
  | Present aptos =>
      match account aptos with
      | Fulfilled accountAddress =>
          let transaction :=
            {| type := "script_function_payload";
               function := "0x1::TestCoin::transfer";
               type_arguments := [];
               arguments := (accountAddress, 1) |} in
          match signAndSubmitTransaction aptos transaction with
          | Fulfilled response =>
              (log ++ [AccountAsked; Submitted transaction], Fulfilled tt)
          | Rejected r =>
              (log ++ [AccountAsked; Submitted transaction], Rejected r)
          end
      | Rejected r => (log ++ [AccountAsked], Rejected r)
      end
  | JsNull | JsUndefined => (log, Rejected PropertyOfNullish)
  end.

(** [accountBalance]: [null] is [None]; [resource == null] holds for
    [null] and for [undefined]. *)
Definition accountBalance {E V Num} (parseInt : V → Num) (this : Client E V)
    (accountAddress : string) : Settled E (option Num) :=
  match accountResource this accountAddress "0x1::TestCoin::Balance" with
  | Fulfilled resource =>
      match resource with
      | JsNull | JsUndefined => Fulfilled None
      | Present resource =>
          match data resource with
          | Present data =>
              match coin data with
              | Present coin => Fulfilled (Some (parseInt (value coin)))
              | JsNull | JsUndefined => Rejected PropertyOfNullish
              end
          | JsNull | JsUndefined => Rejected PropertyOfNullish
          end
      end
  | Rejected r => Rejected r
  end.

End Aptos.

(** ** Facts about the evaluation monad and [Array.prototype.map] *)

Lemma js_bind_Return {A B} (m : js A) (f : A → js B) (b : B) :
  m ≫= f = Return b ↔ ∃ a, m = Return a ∧ f a = Return b.
Proof.
  destruct m as [a|e]; simpl; split.
  - intros H. by exists a.
  - by intros (a' & [= ->] & H).
  - intros H. discriminate H.
  - intros (a' & H & _). discriminate H.
Qed.

Lemma mapi_from_cons_Return {A B} (f : A → nat → js B) i x l r :
  mapi_from f i (x :: l) = Return r ↔
  ∃ y ys, f x i = Return y ∧ mapi_from f (S i) l = Return ys ∧ r = y :: ys.
Proof.
  simpl. rewrite js_bind_Return. split.
  - intros (y & Hy & H). apply js_bind_Return in H as (ys & Hys & [= <-]).
    by exists y, ys.
  - intros (y & ys & Hy & Hys & ->). exists y. split; [done|].
    apply js_bind_Return. by exists ys.
Qed.

Lemma mapi_from_length {A B} (f : A → nat → js B) l :
  ∀ i r, mapi_from f i l = Return r → length r = length l.
Proof.
  induction l as [|x l IH]; intros i r H.
  - by injection H as <-.
  - apply mapi_from_cons_Return in H as (y & ys & _ & Hys & ->).
    simpl. f_equal. by eapply IH.
Qed.

(** Entry [k] of the result is the callback's value at element [k]. *)
Lemma mapi_from_lookup {A B} (f : A → nat → js B) l :
  ∀ i r (k : nat) y, mapi_from f i l = Return r → r !! k = Some y →
    ∃ x, l !! k = Some x ∧ f x (i + k)%nat = Return y.
Proof.
  induction l as [|x l IH]; intros i r k y H Hk.
  - injection H as <-. discriminate Hk.
  - apply mapi_from_cons_Return in H as (y' & ys & Hy & Hys & ->).
    destruct k as [|k]; simpl in *.
    + injection Hk as ->. exists x. by rewrite Nat.add_0_r.
    + destruct (IH _ _ _ _ Hys Hk) as (x' & Hx' & Hf).
      exists x'. split; [done|]. by rewrite Nat.add_succ_r.
Qed.

(** The map returns as soon as the callback returns on every element. *)
Lemma mapi_from_total {A B} (f : A → nat → js B) l :
  ∀ i, (∀ (k : nat) x, l !! k = Some x → ∃ y, f x (i + k)%nat = Return y) →
    ∃ r, mapi_from f i l = Return r.
Proof.
  induction l as [|x l IH]; intros i H.
  - by exists [].
  - destruct (H 0%nat x eq_refl) as (y & Hy). rewrite Nat.add_0_r in Hy.
    destruct (IH (S i)) as (ys & Hys).
    { intros k x' Hk. destruct (H (S k) x' Hk) as (y' & Hy').
      exists y'. by rewrite Nat.add_succ_r in Hy'. }
    exists (y :: ys). apply mapi_from_cons_Return. by exists y, ys.
Qed.

(** The entries that survive the [null] filter, with the indices they come
    from: the indices increase strictly and stay inside the input. *)
Lemma mapi_from_kept {A B} (f : A → nat → js (option B)) l :
  ∀ i r, mapi_from f i l = Return r →
    ∃ ks : list nat,
      StronglySorted lt ks ∧
      Forall (λ k, i ≤ k < i + length l)%nat ks ∧
      Forall2 (λ p k, ∃ x, l !! (k - i)%nat = Some x ∧ f x k = Return (Some p))
              (omap id r) ks.
Proof.
  induction l as [|x l IH]; intros i r H.
  - injection H as <-. exists []. repeat split; constructor.
  - apply mapi_from_cons_Return in H as (y & ys & Hy & Hys & ->).
    destruct (IH _ _ Hys) as (ks & Hsorted & Hrange & Hall).
    assert (Hall' : Forall2
              (λ p k, ∃ x', (x :: l) !! (k - i)%nat = Some x' ∧ f x' k = Return (Some p))
              (omap id ys) ks).
    { clear Hsorted. revert Hrange.
      induction Hall as [|p k ps ks (x' & Hx' & Hf) _ IHall]; intros Hrange;
        [constructor|].
      apply Forall_cons in Hrange as [Hk Hrange].
      constructor; [|by apply IHall].
      exists x'. split; [|done].
      replace (k - i)%nat with (S (k - S i)) by lia. done. }
    assert (Hrange' : Forall (λ k, i ≤ k < i + length (x :: l))%nat ks).
    { eapply Forall_impl; [exact Hrange|]. simpl. intros k ?. lia. }
    destruct y as [p|]; simpl.
    + exists (i :: ks). split; [|split].
      * constructor; [done|]. eapply Forall_impl; [exact Hrange|].
        simpl. intros k ?. lia.
      * constructor; [simpl; lia|done].
      * constructor; [|done]. exists x. by rewrite Nat.sub_diag.
    + by exists ks.
Qed.

(** ** Properties of the hooks *)

Section Properties.

Context {Incentive : Type} (incentivePool : Incentive → Pool.t).
Context {DepositedTokenIdsState : Type} `{EqDecision DepositedTokenIdsState}
        (LOADING : DepositedTokenIdsState).
Variable positionsCalls : list (list Z) → list (CallState.t PositionsResult.t).
Variable ownerOfCalls : list (list Z) → list (CallState.t AddressResult.t).
Variable depositsCalls : list (list Z) → list (CallState.t AddressResult.t).
Variable tokenOfOwnerByIndexCalls : list (string * Z) → list (CallState.t UintResult.t).
Variable balanceOfCall : option string → CallState.t UintResult.t.
Variable useAllIncentives : AllIncentives.t Incentive.
Variable useDepositedTokenIds : Account → DepositedTokenIds.t DepositedTokenIdsState.

Abbreviation Position := (PositionDetails.t Incentive).
Abbreviation fromTokenIds :=
  (useV3PositionsFromTokenIds incentivePool positionsCalls ownerOfCalls depositsCalls
     useAllIncentives).
Abbreviation byOwner :=
  (useV3Positions incentivePool LOADING positionsCalls ownerOfCalls depositsCalls
     tokenOfOwnerByIndexCalls balanceOfCall useAllIncentives useDepositedTokenIds).
Abbreviation forPool :=
  (useV3PositionsForPool incentivePool LOADING positionsCalls ownerOfCalls depositsCalls
     tokenOfOwnerByIndexCalls balanceOfCall useAllIncentives useDepositedTokenIds).

(** *** The [tokenIds.map] callback *)

Lemma resultAt_Return {R} (calls : list (CallState.t R)) i r :
  resultAt calls i = Return r ↔ ∃ c, calls !! i = Some c ∧ CallState.result c = r.
Proof.
  unfold resultAt. destruct (calls !! i) as [c|]; split.
  - intros [= <-]. by exists c.
  - by intros (c' & [= <-] & <-).
  - intros H. discriminate H.
  - intros (c' & H & _). discriminate H.
Qed.

(** What a produced position says about the three call states at its index. *)
Lemma toPosition_Some_inv owners infos deps (byKey : gmap string (list Incentive))
    (t : Z) (i : nat) (p : Position) :
  toPosition owners infos deps byKey t i = Return (Some p) →
  ∃ co ci cd o info,
    owners !! i = Some co ∧ infos !! i = Some ci ∧ deps !! i = Some cd ∧
    CallState.result co = Some o ∧ AddressResult.item0 o ≠ "" ∧
    CallState.result ci = Some info ∧
    PositionDetails.tokenId p = t ∧
    PositionDetails.token0 p = PositionsResult.token0 info ∧
    PositionDetails.token1 p = PositionsResult.token1 info ∧
    PositionDetails.fee p = PositionsResult.fee info ∧
    PositionDetails.tickLower p = PositionsResult.tickLower info ∧
    PositionDetails.tickUpper p = PositionsResult.tickUpper info ∧
    PositionDetails.depositedInStaker p =
      (let depositOwner := AddressResult.item0 <$> CallState.result cd in
       truthy depositOwner && bool_decide (depositOwner ≠ Some AddressZero)) ∧
    PositionDetails.owner p =
      (if PositionDetails.depositedInStaker p
       then AddressResult.item0 <$> CallState.result cd
       else Some (AddressResult.item0 o)) ∧
    PositionDetails.incentives p =
      default [] (byKey !! toPoolKey
        (PoolKey.mk (PoolKey.Str (PositionDetails.token0 p))
                    (PoolKey.Str (PositionDetails.token1 p))
                    (PositionDetails.fee p))).
Proof.
  unfold toPosition. intros H.
  apply js_bind_Return in H as (ro & Hro & H).
  apply js_bind_Return in H as (ri & Hri & H).
  apply js_bind_Return in H as (rd & Hrd & H).
  apply resultAt_Return in Hro as (co & Hco & <-).
  apply resultAt_Return in Hri as (ci & Hci & <-).
  apply resultAt_Return in Hrd as (cd & Hcd & <-).
  destruct (CallState.result ci) as [info|] eqn:Hinfo; [|discriminate H].
  destruct (CallState.result co) as [o|] eqn:Ho; [|discriminate H].
  simpl in H.
  destruct (String.eqb (AddressResult.item0 o) "") eqn:Hempty; [discriminate H|].
  simpl in H. injection H as <-.
  exists co, ci, cd, o, info. simpl.
  apply String.eqb_neq in Hempty.
  repeat split; done.
Qed.

(** The callback returns whenever the three batches have an entry at the
    index, and returns [null] when the owner or the details are missing. *)
Lemma toPosition_in_range owners infos deps (byKey : gmap string (list Incentive))
    (t : Z) (i : nat) co ci cd :
  owners !! i = Some co → infos !! i = Some ci → deps !! i = Some cd →
  (∃ y, toPosition owners infos deps byKey t i = Return y) ∧
  (CallState.result co = None ∨ CallState.result ci = None →
     toPosition owners infos deps byKey t i = Return None).
Proof.
  intros Hco Hci Hcd. unfold toPosition, resultAt. rewrite Hco, Hci, Hcd. simpl.
  destruct (CallState.result ci) as [info|], (CallState.result co) as [o|]; simpl.
  - destruct (String.eqb _ _); simpl; split; eauto; intros [?|?]; done.
  - split; eauto.
  - split; eauto.
  - split; eauto.
Qed.

(** *** The [positions] memo and the hook around it *)

Lemma filterNull_elem (rs : list (option Position)) (p : Position) :
  p ∈ filterNull rs ↔ ∃ k : nat, rs !! k = Some (Some p).
Proof.
  unfold filterNull. rewrite list_elem_of_omap. split.
  - intros (y & Hy & Hid). simpl in Hid. subst y.
    by apply list_elem_of_lookup in Hy.
  - intros (k & Hk). exists (Some p). split; [|done].
    apply list_elem_of_lookup. by exists k.
Qed.

Lemma positions_Some_inv loading error tokenIds owners infos deps
    (byKey : gmap string (list Incentive)) (ps : list Position) :
  positions loading error tokenIds owners infos deps byKey = Return (Some ps) →
  ∃ ids rs,
    tokenIds = Some ids ∧ loading = false ∧ error = false ∧
    array_map (toPosition owners infos deps byKey) ids = Return rs ∧
    ps = filterNull rs.
Proof.
  unfold positions. intros H.
  destruct tokenIds as [ids|]; [|discriminate H].
  destruct loading, error; simpl in H; try discriminate H.
  apply js_bind_Return in H as (rs & Hrs & [= <-]).
  by exists ids, rs.
Qed.

(** The hook returns the two flags of the flag memo and the value of the
    [positions] memo. *)
Lemma fromTokenIds_Return_inv tokenIds r :
  fromTokenIds tokenIds = Return r →
  let infos := positionsCalls (inputs tokenIds) in
  let owners := ownerOfCalls (inputs tokenIds) in
  let deps := depositsCalls (inputs tokenIds) in
  loading_error infos owners deps (AllIncentives.loading useAllIncentives)
    = (UseV3PositionsResults.loading r, UseV3PositionsResults.error r) ∧
  positions (UseV3PositionsResults.loading r) (UseV3PositionsResults.error r)
      tokenIds owners infos deps
      (incentivesByPoolKey incentivePool (AllIncentives.incentives useAllIncentives))
    = Return (UseV3PositionsResults.positions r).
Proof.
  unfold useV3PositionsFromTokenIds. intros H.
  destruct (loading_error _ _ _ _) as [l e].
  apply js_bind_Return in H as (ps & Hps & [= <-]). by simpl.
Qed.

(** Every produced position is the callback's value at some index of the
    identifier list. *)
Lemma fromTokenIds_origin tokenIds r ps (p : Position) :
  fromTokenIds tokenIds = Return r →
  UseV3PositionsResults.positions r = Some ps →
  p ∈ ps →
  ∃ ids (i : nat) t,
    tokenIds = Some ids ∧ ids !! i = Some t ∧
    toPosition (ownerOfCalls (inputs tokenIds)) (positionsCalls (inputs tokenIds))
      (depositsCalls (inputs tokenIds))
      (incentivesByPoolKey incentivePool (AllIncentives.incentives useAllIncentives))
      t i = Return (Some p).
Proof.
  intros Hr Hps Hp.
  apply fromTokenIds_Return_inv in Hr as [_ Hpos]. rewrite Hps in Hpos.
  apply positions_Some_inv in Hpos as (ids & rs & Hids & _ & _ & Hmap & ->).
  apply filterNull_elem in Hp as (k & Hk).
  destruct (mapi_from_lookup _ _ _ _ _ _ Hmap Hk) as (t & Ht & Hf).
  by exists ids, k, t.
Qed.

Lemma existsb_elem {A} (f : A → bool) (l : list A) :
  existsb f l = true ↔ ∃ x, x ∈ l ∧ f x = true.
Proof.
  rewrite existsb_exists.
  split; intros (x & Hx & Hf); exists x; split; try done; by apply list_elem_of_In.
Qed.

(** C1. A token identifier all of whose occurrences in the input list lack
    the owner result or the position-details result has no record in the
    output: the hook returns normally, with the error flag down and a
    positions list that holds no position of that identifier. The batches
    are assumed to hold one call state per input, none loading or errored. *)
Theorem missing_result_dropped (ids : list Z) (t : Z) :
  let infos := positionsCalls (inputs (Some ids)) in
  let owners := ownerOfCalls (inputs (Some ids)) in
  let deps := depositsCalls (inputs (Some ids)) in
  length infos = length ids →
  length owners = length ids →
  length deps = length ids →
  loading_error infos owners deps (AllIncentives.loading useAllIncentives)
    = (false, false) →
  (∀ (i : nat) co ci,
     ids !! i = Some t → owners !! i = Some co → infos !! i = Some ci →
     CallState.result co = None ∨ CallState.result ci = None) →
  ∃ ps,
    fromTokenIds (Some ids) = Return (UseV3PositionsResults.mk false false (Some ps)) ∧
    ∀ p, p ∈ ps → PositionDetails.tokenId p ≠ t.
Proof.
  intros infos owners deps Hli Hlo Hld Hflags Hmissing.
  set (byKey := incentivesByPoolKey incentivePool (AllIncentives.incentives useAllIncentives)).
  destruct (mapi_from_total (toPosition owners infos deps byKey) ids 0%nat) as (rs & Hrs).
  { intros k x Hk. apply lookup_lt_Some in Hk.
    destruct (lookup_lt_is_Some_2 owners k) as (co & Hco); [lia|].
    destruct (lookup_lt_is_Some_2 infos k) as (ci & Hci); [lia|].
    destruct (lookup_lt_is_Some_2 deps k) as (cd & Hcd); [lia|].
    by destruct (toPosition_in_range owners infos deps byKey x k co ci cd). }
  exists (filterNull rs). split.
  - unfold useV3PositionsFromTokenIds. fold infos owners deps. rewrite Hflags.
    fold byKey. unfold positions, array_map. simpl. by rewrite Hrs.
  - intros p Hp Heq. apply filterNull_elem in Hp as (k & Hk).
    destruct (mapi_from_lookup _ _ _ _ _ _ Hrs Hk) as (x & Hx & Hf). simpl in Hf.
    destruct (toPosition_Some_inv _ _ _ _ _ _ _ Hf)
      as (co & ci & cd & o & info & Hco & Hci & _ & Ho & _ & Hinfo & Hid & _).
    rewrite Heq in Hid. subst x.
    destruct (Hmissing k co ci Hx Hco Hci); congruence.
Qed.


(** C2. A produced position comes from an index of the identifier list with
    an owner result, and its owner fields follow the staking-deposit owner
    read at that index: a deposit owner that is present (a non-empty address
    string) and differs from the zero address is reported as owner with
    [depositedInStaker] set; with no deposit owner, or the zero address, the
    direct on-chain owner is reported and the flag is off. (An empty string,
    which is not an address, counts as absent.) *)
Theorem owner_selection tokenIds r ps (p : Position) :
  fromTokenIds tokenIds = Return r →
  UseV3PositionsResults.positions r = Some ps →
  p ∈ ps →
  ∃ ids (i : nat) co cd o,
    tokenIds = Some ids ∧ ids !! i = Some (PositionDetails.tokenId p) ∧
    ownerOfCalls (inputs tokenIds) !! i = Some co ∧
    depositsCalls (inputs tokenIds) !! i = Some cd ∧
    CallState.result co = Some o ∧
    let directOwner := AddressResult.item0 o in
    let depositOwner := AddressResult.item0 <$> CallState.result cd in
    (∀ d, depositOwner = Some d → d ≠ "" → d ≠ AddressZero →
       PositionDetails.owner p = Some d ∧
       PositionDetails.depositedInStaker p = true) ∧
    (depositOwner = None ∨ depositOwner = Some AddressZero ∨ depositOwner = Some "" →
       PositionDetails.owner p = Some directOwner ∧
       PositionDetails.depositedInStaker p = false).
Proof.
  intros Hr Hps Hp.
  destruct (fromTokenIds_origin _ _ _ _ Hr Hps Hp) as (ids & i & t & Hids & Ht & Hf).
  destruct (toPosition_Some_inv _ _ _ _ _ _ _ Hf)
    as (co & ci & cd & o & info & Hco & _ & Hcd & Ho & _ & _ & Hid & _ & _ & _ & _ & _
        & Hstaked & Howner & _).
  exists ids, i, co, cd, o. rewrite Hid.
  do 5 (split; [done|]). simpl. split.
  - intros d Hd Hne Hnz.
    assert (Hs : PositionDetails.depositedInStaker p = true).
    { rewrite Hstaked. simpl. rewrite Hd. simpl.
      apply String.eqb_neq in Hne. rewrite Hne. simpl.
      apply bool_decide_eq_true. congruence. }
    by rewrite Howner, Hs, Hd.
  - intros Hcase.
    assert (Hs : PositionDetails.depositedInStaker p = false).
    { rewrite Hstaked. simpl.
      by destruct Hcase as [-> | [-> | ->]]. }
    by rewrite Howner, Hs.
Qed.

(** C9. A produced positions list follows the input identifier list: both
    flags are down, the positions come from strictly increasing indices of
    the input, each carrying the identifier found at its index, so that the
    identifiers of the output are the input list with some entries dropped
    and the output is no longer than the input. *)
Theorem positions_follow_tokenIds tokenIds r ps :
  fromTokenIds tokenIds = Return r →
  UseV3PositionsResults.positions r = Some ps →
  ∃ ids (ks : list nat),
    tokenIds = Some ids ∧
    UseV3PositionsResults.loading r = false ∧
    UseV3PositionsResults.error r = false ∧
    StronglySorted lt ks ∧
    Forall2 (λ (p : Position) k, ids !! k = Some (PositionDetails.tokenId p)) ps ks ∧
    (PositionDetails.tokenId <$> ps) `sublist_of` ids ∧
    (length ps ≤ length ids)%nat.
Proof.
  intros Hr Hps.
  apply fromTokenIds_Return_inv in Hr as [_ Hpos]. rewrite Hps in Hpos.
  apply positions_Some_inv in Hpos as (ids & rs & Hids & Hl & He & Hmap & ->).
  destruct (mapi_from_kept _ _ _ _ Hmap) as (ks & Hsorted & _ & Hall).
  assert (Hsub : (PositionDetails.tokenId <$> filterNull rs) `sublist_of` ids).
  { clear Hall Hsorted ks Hps Hids. unfold array_map in Hmap.
    revert Hmap. generalize 0%nat. revert rs.
    induction ids as [|x ids IH]; intros rs i Hmap.
    - by injection Hmap as <-.
    - apply mapi_from_cons_Return in Hmap as (y & ys & Hy & Hys & ->).
      destruct y as [p|]; simpl.
      + apply toPosition_Some_inv in Hy
          as (_ & _ & _ & _ & _ & _ & _ & _ & _ & _ & _ & Hid & _).
        rewrite Hid. apply sublist_skip. by eapply IH.
      + apply sublist_cons. by eapply IH. }
  exists ids, ks. repeat split; try done.
  - eapply Forall2_impl; [exact Hall|]. simpl.
    intros p k (x & Hx & Hf). rewrite Nat.sub_0_r in Hx.
    apply toPosition_Some_inv in Hf
      as (_ & _ & _ & _ & _ & _ & _ & _ & _ & _ & _ & Hid & _).
    by rewrite Hid.
  - apply sublist_length in Hsub. by rewrite length_fmap in Hsub.
Qed.


(** *** The aggregate flags *)

Lemma loading_error_spec infos owners deps incentivesLoading :
  (fst (loading_error infos owners deps incentivesLoading) = true ↔
     incentivesLoading = true ∨
     (∃ c, c ∈ infos ∧ CallState.loading c = true) ∨
     (∃ c, c ∈ owners ∧ CallState.loading c = true) ∨
     (∃ c, c ∈ deps ∧ CallState.loading c = true)) ∧
  (snd (loading_error infos owners deps incentivesLoading) = true ↔
     (∃ c, c ∈ infos ∧ CallState.error c = true) ∨
     (∃ c, c ∈ owners ∧ CallState.error c = true) ∨
     (∃ c, c ∈ deps ∧ CallState.error c = true)).
Proof.
  unfold loading_error. simpl.
  rewrite !orb_true_iff, !existsb_elem. tauto.
Qed.

(** C3. The aggregate loading flag is up exactly when the incentive fetch is
    loading or some call of the position-details, owner or deposit-owner
    batch is loading; the aggregate error flag is up exactly when some call
    of a batch errored; and with either flag up the hook returns with
    [positions] undefined. *)
Theorem aggregate_flags tokenIds :
  let infos := positionsCalls (inputs tokenIds) in
  let owners := ownerOfCalls (inputs tokenIds) in
  let deps := depositsCalls (inputs tokenIds) in
  let someLoading :=
    AllIncentives.loading useAllIncentives = true ∨
    (∃ c, c ∈ infos ∧ CallState.loading c = true) ∨
    (∃ c, c ∈ owners ∧ CallState.loading c = true) ∨
    (∃ c, c ∈ deps ∧ CallState.loading c = true) in
  let someError :=
    (∃ c, c ∈ infos ∧ CallState.error c = true) ∨
    (∃ c, c ∈ owners ∧ CallState.error c = true) ∨
    (∃ c, c ∈ deps ∧ CallState.error c = true) in
  (∀ r, fromTokenIds tokenIds = Return r →
     (UseV3PositionsResults.loading r = true ↔ someLoading) ∧
     (UseV3PositionsResults.error r = true ↔ someError) ∧
     (UseV3PositionsResults.loading r = true ∨ UseV3PositionsResults.error r = true →
        UseV3PositionsResults.positions r = None)) ∧
  (someLoading ∨ someError →
     ∃ r, fromTokenIds tokenIds = Return r ∧
          UseV3PositionsResults.positions r = None).
Proof.
  intros infos owners deps someLoading someError.
  destruct (loading_error_spec infos owners deps (AllIncentives.loading useAllIncentives))
    as [Hl He].
  fold someLoading in Hl. fold someError in He.
  split.
  - intros r Hr. apply fromTokenIds_Return_inv in Hr as [Hflags Hpos].
    fold infos owners deps in Hflags, Hpos.
    rewrite Hflags in Hl, He. simpl in Hl, He.
    split; [done|]. split; [done|].
    intros Hup. unfold positions in Hpos.
    destruct tokenIds as [ids|]; [|by injection Hpos as <-].
    destruct (UseV3PositionsResults.loading r), (UseV3PositionsResults.error r);
      simpl in Hpos; try (by injection Hpos as <-).
    by destruct Hup.
  - intros Hup. unfold useV3PositionsFromTokenIds. fold infos owners deps.
    destruct (loading_error infos owners deps _) as [l e]. simpl in Hl, He.
    assert (Hle : negb l && negb e = false).
    { destruct Hup as [H1 | H1]; [apply Hl in H1 | apply He in H1];
        subst; [done | by destruct l]. }
    unfold positions. rewrite Hle.
    destruct tokenIds; simpl; eauto.
Qed.


(** *** Incentives by pool key *)

Lemma append_nil_l (s : string) : "" +:+ s = s.
Proof. reflexivity. Qed.

Lemma append_cons c (s r : string) : String c s +:+ r = String c (s +:+ r).
Proof. reflexivity. Qed.

Lemma append_hyphen_inj (s1 s2 r1 r2 : string) :
  hyphenFree s1 = true → hyphenFree s2 = true →
  s1 +:+ "-" +:+ r1 = s2 +:+ "-" +:+ r2 → s1 = s2 ∧ r1 = r2.
Proof.
  revert s2. induction s1 as [|c s1 IH]; intros [|c' s2] H1 H2 Heq;
    rewrite ?append_cons, ?append_nil_l in Heq; simpl in H1, H2.
  - by injection Heq as ->.
  - injection Heq as <- _. by rewrite Ascii.eqb_refl in H2.
  - injection Heq as -> _. by rewrite Ascii.eqb_refl in H1.
  - injection Heq as -> Heq.
    apply andb_true_iff in H1 as [_ H1]. apply andb_true_iff in H2 as [_ H2].
    destruct (IH s2 H1 H2 Heq) as [-> ->]. done.
Qed.

(** On hyphen-free addresses the string key determines the triple. *)
Lemma toPoolKey_inj (k1 k2 : PoolKey.t) :
  hyphenFree (tokenAddress (PoolKey.token0 k1)) = true →
  hyphenFree (tokenAddress (PoolKey.token1 k1)) = true →
  hyphenFree (tokenAddress (PoolKey.token0 k2)) = true →
  hyphenFree (tokenAddress (PoolKey.token1 k2)) = true →
  toPoolKey k1 = toPoolKey k2 →
  tokenAddress (PoolKey.token0 k1) = tokenAddress (PoolKey.token0 k2) ∧
  tokenAddress (PoolKey.token1 k1) = tokenAddress (PoolKey.token1 k2) ∧
  PoolKey.fee k1 = PoolKey.fee k2.
Proof.
  unfold toPoolKey. intros H10 H11 H20 H21 Heq.
  apply append_hyphen_inj in Heq as [E0 Heq]; [|done..].
  apply append_hyphen_inj in Heq as [E1 Heq]; [|done..].
  by apply (inj pretty) in Heq.
Qed.

Lemma filter_ext_elem {A} (P1 P2 : A → Prop)
    `{∀ x, Decision (P1 x)} `{∀ x, Decision (P2 x)} (l : list A) :
  (∀ x, x ∈ l → P1 x ↔ P2 x) → filter P1 l = filter P2 l.
Proof.
  induction l as [|x l IH]; intros Hext; [done|].
  rewrite !filter_cons.
  assert (Hx : P1 x ↔ P2 x) by (apply Hext; left).
  rewrite IH by (intros y Hy; apply Hext; by right).
  destruct (decide (P1 x)), (decide (P2 x)); tauto || done.
Qed.

(** One pass of the reducer appends, to the group of each key, the
    incentives of that key in list order. *)
Lemma incentives_fold_lookup (incs : list Incentive)
    (memo : gmap string (list Incentive)) (k : string) :
  default []
    (fold_left
       (λ (memo : gmap string (list Incentive)) incentive,
          let key := toPoolKey (PoolKey.ofPool (incentivePool incentive)) in
          <[key := default [] (memo !! key) ++ [incentive]]> memo)
       incs memo !! k) =
  default [] (memo !! k) ++
  filter (λ inc, toPoolKey (PoolKey.ofPool (incentivePool inc)) = k) incs.
Proof.
  revert memo. induction incs as [|inc incs IH]; intros memo; simpl.
  - by rewrite app_nil_r.
  - rewrite IH, filter_cons, lookup_insert.
    destruct (decide (toPoolKey (PoolKey.ofPool (incentivePool inc)) = k)) as [->|Hne].
    + simpl. by rewrite <- app_assoc.
    + done.
Qed.

(** Each group of the map is the source list filtered by its key, in source
    order; a key without incentives has no entry. *)
Lemma incentivesByPoolKey_lookup (incentives : option (list Incentive)) (k : string) :
  default [] (incentivesByPoolKey incentivePool incentives !! k) =
  filter (λ inc, toPoolKey (PoolKey.ofPool (incentivePool inc)) = k)
         (default [] incentives).
Proof.
  unfold incentivesByPoolKey. destruct incentives as [incs|]; simpl; [|done].
  by rewrite incentives_fold_lookup, lookup_empty.
Qed.

(** C7. The incentives of a produced position are the incentives of the
    source list whose pool has the position's token0 address, token1 address
    and fee, in source order (none when no incentive matches). Token
    addresses are taken hyphen-free, so that the string key stands for the
    triple. *)
Theorem incentives_attached tokenIds r ps (p : Position) :
  let source := default [] (AllIncentives.incentives useAllIncentives) in
  fromTokenIds tokenIds = Return r →
  UseV3PositionsResults.positions r = Some ps →
  p ∈ ps →
  hyphenFree (PositionDetails.token0 p) = true →
  hyphenFree (PositionDetails.token1 p) = true →
  (∀ inc, inc ∈ source →
     hyphenFree (Token.address (Pool.token0 (incentivePool inc))) = true ∧
     hyphenFree (Token.address (Pool.token1 (incentivePool inc))) = true) →
  PositionDetails.incentives p =
  filter (λ inc,
            Token.address (Pool.token0 (incentivePool inc)) = PositionDetails.token0 p ∧
            Token.address (Pool.token1 (incentivePool inc)) = PositionDetails.token1 p ∧
            Pool.fee (incentivePool inc) = PositionDetails.fee p)
         source.
Proof.
  intros source Hr Hps Hp Hp0 Hp1 Hsource.
  destruct (fromTokenIds_origin _ _ _ _ Hr Hps Hp) as (ids & i & t & _ & _ & Hf).
  apply toPosition_Some_inv in Hf
    as (_ & _ & _ & _ & _ & _ & _ & _ & _ & _ & _ & _ & _ & _ & _ & _ & _ & _ & _ & Hinc).
  rewrite Hinc, incentivesByPoolKey_lookup. fold source.
  apply filter_ext_elem. intros inc Hin.
  destruct (Hsource inc Hin) as [Hi0 Hi1]. split.
  - intros Hkey. by apply toPoolKey_inj in Hkey.
  - intros (E0 & E1 & E2). unfold toPoolKey. simpl. by rewrite E0, E1, E2.
Qed.


(** *** Range classification *)

Lemma relevant_spec (pool : Pool.t) (p : Position) :
  relevant pool p = true ↔
  PositionDetails.token0 p = Token.address (Pool.token0 pool) ∧
  PositionDetails.token1 p = Token.address (Pool.token1 pool) ∧
  PositionDetails.fee p = Pool.fee pool.
Proof.
  unfold relevant. rewrite !andb_true_iff, !String.eqb_eq, Z.eqb_eq. tauto.
Qed.

Lemma inRange_spec (pool : Pool.t) (p : Position) :
  inRange pool p = true ↔
  ∃ lower upper,
    PositionDetails.tickLower p = Some lower ∧
    PositionDetails.tickUpper p = Some upper ∧
    lower ≤ Pool.tickCurrent pool < upper.
Proof.
  unfold inRange.
  destruct (PositionDetails.tickLower p) as [lower|],
           (PositionDetails.tickUpper p) as [upper|]; simpl.
  - rewrite andb_true_iff, !negb_true_iff, Z.ltb_ge, Z.geb_leb, Z.leb_gt. split.
    + intros [? ?]. by exists lower, upper.
    + by intros (? & ? & [= <-] & [= <-] & ? & ?).
  - split; [done|]. by intros (? & ? & _ & ? & _).
  - split; [done|]. by intros (? & ? & ? & _).
  - split; [done|]. by intros (? & ? & ? & _).
Qed.

Lemma filter_partition {A} (f : A → bool) (l : list A) :
  l ≡ₚ List.filter f l ++ List.filter (λ x, negb (f x)) l.
Proof.
  induction l as [|x l IH]; simpl; [done|].
  destruct (f x); simpl.
  - by rewrite <- IH.
  - by rewrite <- Permutation_middle, <- IH.
Qed.

Lemma elem_of_List_filter {A} (f : A → bool) (l : list A) (x : A) :
  x ∈ List.filter f l ↔ x ∈ l ∧ f x = true.
Proof. by rewrite !list_elem_of_In, filter_In. Qed.

(** C4, as amended. Among the positions matching the pool's token0 address,
    token1 address and fee, the in-range bucket holds exactly those with two
    numeric bounds and [tickLower <= tickCurrent < tickUpper]; the
    out-of-range bucket holds exactly the matching positions that are not in
    range, so the two buckets split the matching positions; a matching
    position with a non-numeric bound is therefore out of range. *)
Theorem range_classification (pool : Pool.t) (ps : list Position) (p : Position) :
  let matching :=
    p ∈ ps ∧
    PositionDetails.token0 p = Token.address (Pool.token0 pool) ∧
    PositionDetails.token1 p = Token.address (Pool.token1 pool) ∧
    PositionDetails.fee p = Pool.fee pool in
  (p ∈ inRangePositions pool ps ↔
     matching ∧
     ∃ lower upper,
       PositionDetails.tickLower p = Some lower ∧
       PositionDetails.tickUpper p = Some upper ∧
       lower ≤ Pool.tickCurrent pool < upper) ∧
  (p ∈ outOfRangePositions pool ps ↔ matching ∧ p ∉ inRangePositions pool ps) ∧
  (matching →
   PositionDetails.tickLower p = None ∨ PositionDetails.tickUpper p = None →
   (p ∉ inRangePositions pool ps) ∧ (p ∈ outOfRangePositions pool ps)) ∧
  relevantPositions pool ps ≡ₚ inRangePositions pool ps ++ outOfRangePositions pool ps.
Proof.
  intros matching.
  assert (Hrel : p ∈ relevantPositions pool ps ↔ matching).
  { unfold relevantPositions, matching.
    by rewrite elem_of_List_filter, relevant_spec. }
  assert (Hin : p ∈ inRangePositions pool ps ↔ matching ∧ inRange pool p = true).
  { unfold inRangePositions. by rewrite elem_of_List_filter, Hrel. }
  assert (Hout : p ∈ outOfRangePositions pool ps ↔ matching ∧ inRange pool p = false).
  { unfold outOfRangePositions.
    by rewrite elem_of_List_filter, Hrel, negb_true_iff. }
  split; [by rewrite Hin, inRange_spec|].
  split; [|split].
  - rewrite Hout, Hin. split.
    + intros [Hm Hf]. split; [done|]. intros [_ Ht]. congruence.
    + intros [Hm Hn]. split; [done|].
      destruct (inRange pool p); [|done]. by destruct Hn.
  - intros Hm Hnone. rewrite Hout, Hin.
    assert (Hf : inRange pool p = false).
    { unfold inRange. destruct Hnone as [-> | ->]; simpl; [done|].
      by destruct (PositionDetails.tickLower p). }
    split; [|done]. intros [_ Ht]. congruence.
  - apply filter_partition.
Qed.

(** C5. With [useV3Positions] returning, the pool filter computes the two
    buckets exactly when the aggregate reports [loading = true] with both
    [positions] and the pool defined; when the aggregate reports
    [loading = false], or [positions] or the pool is undefined, it returns
    [loading = false] with both buckets undefined. *)
Theorem pool_filter_guard account (pool : option Pool.t) r :
  byOwner account = Return r →
  (UseV3PositionsResults.loading r = false ∨
   UseV3PositionsResults.positions r = None ∨ pool = None →
     forPool account pool = Return (PositionsForPoolResults.mk false None None)) ∧
  (∀ ps pl,
     UseV3PositionsResults.loading r = true →
     UseV3PositionsResults.positions r = Some ps → pool = Some pl →
     forPool account pool =
       Return (PositionsForPoolResults.mk false
                 (Some (inRangePositions pl ps)) (Some (outOfRangePositions pl ps)))) ∧
  (∀ q, forPool account pool = Return q →
     PositionsForPoolResults.loading q = false ∧
     (is_Some (PositionsForPoolResults.inRangePositions q) ∨
      is_Some (PositionsForPoolResults.outOfRangePositions q) →
        UseV3PositionsResults.loading r = true ∧
        is_Some (UseV3PositionsResults.positions r) ∧ is_Some pool)).
Proof.
  intros Hr. unfold useV3PositionsForPool. rewrite Hr. simpl.
  destruct (UseV3PositionsResults.positions r) as [ps|], pool as [pl|],
           (UseV3PositionsResults.loading r); simpl.
  all: split; [|split].
  all: try (intros [?|[?|?]]; done).
  all: try (intros ps' pl' ? ? ?; congruence).
  all: try (intros _; done).
  all: intros q [= <-]; simpl; split; [done|].
  all: try (intros [[? ?]|[? ?]]; done).
  all: intros _; eauto.
Qed.


(** *** Resolving the owner's token identifiers *)

(** C6. For an account (a non-empty address string), the resolved
    identifier list is the identifiers of the index-based enumeration whose
    results are available, in request order, followed by the identifiers
    deposited in the staker, with nothing removed: an identifier found in
    both sources occurs at least twice. *)
Theorem tokenIds_concatenation (a : string) (deposited : option (list Z))
    (tokenIdResults : list (CallState.t UintResult.t)) :
  a ≠ "" →
  let enumerated :=
    omap (λ c, UintResult.item0 <$> CallState.result c) tokenIdResults in
  let staked := default [] deposited in
  tokenIds (Addr a) deposited tokenIdResults = enumerated ++ staked ∧
  length (tokenIds (Addr a) deposited tokenIdResults)
    = (length enumerated + length staked)%nat ∧
  ∀ t, t ∈ enumerated → t ∈ staked →
    ∃ l1 l2 l3, tokenIds (Addr a) deposited tokenIdResults = l1 ++ t :: l2 ++ t :: l3.
Proof.
  intros Ha enumerated staked.
  assert (Heq : tokenIds (Addr a) deposited tokenIdResults = enumerated ++ staked).
  { unfold tokenIds. simpl. apply String.eqb_neq in Ha. rewrite Ha. simpl.
    f_equal.
    - unfold enumerated. clear. induction tokenIdResults as [|c l IH]; [done|].
      simpl. destruct (CallState.result c); simpl; [f_equal|]; apply IH.
    - unfold staked. destruct deposited as [d|]; simpl; [|done].
      unfold BigNumber_from. by rewrite map_id. }
  rewrite Heq. split; [done|]. split; [by rewrite length_app|].
  intros t He Hs.
  apply list_elem_of_split in He as (l1 & l2 & ->).
  apply list_elem_of_split in Hs as (l3 & l4 & ->).
  exists l1, (l2 ++ l3), l4. by rewrite <- !app_assoc.
Qed.

(** The request loop pushes the counter values from [i] up to
    [accountBalance - 1], in order, whenever the fuel covers them. *)
Lemma pushTokenRequests_spec (fuel : nat) (a : string) (n i : Z)
    (acc : list (string * Z)) :
  (Z.to_nat (n - i) ≤ fuel)%nat →
  pushTokenRequests fuel a n i acc = acc ++ ((λ j, (a, j)) <$> seqZ i (n - i)).
Proof.
  revert i acc. induction fuel as [|fuel IH]; intros i acc Hfuel; simpl.
  - rewrite seqZ_nil by lia. by rewrite app_nil_r.
  - destruct (Z.ltb_spec i n) as [Hlt|Hge].
    + rewrite IH by lia. rewrite (seqZ_cons i (n - i)) by lia.
      replace (Z.succ i) with (i + 1) by lia.
      replace (Z.pred (n - i)) with (n - (i + 1)) by lia.
      by rewrite <- app_assoc.
    + rewrite seqZ_nil by lia. by rewrite app_nil_r.
Qed.

(** C8. With a reported balance [n] inside the safe integer range, an
    account issues exactly [n] index-based requests, with the indices
    [0 .. n - 1] in order; for a balance of 2 these are the indices 0 and
    1. *)
Theorem index_requests (a : string) (n : Z) :
  a ≠ "" →
  0 ≤ n ≤ MAX_SAFE_INTEGER →
  accountBalance (Some (UintResult.mk n)) = Return (Some n) ∧
  tokenIdsArgs (Addr a) (Some n) = (λ i, (a, i)) <$> seqZ 0 n ∧
  length (tokenIdsArgs (Addr a) (Some n)) = Z.to_nat n ∧
  tokenIdsArgs (Addr a) (Some 2) = [(a, 0); (a, 1)].
Proof.
  intros Ha Hn. apply String.eqb_neq in Ha.
  assert (Hargs : tokenIdsArgs (Addr a) (Some n) = (λ i, (a, i)) <$> seqZ 0 n).
  { unfold tokenIdsArgs. simpl. rewrite Ha. simpl.
    destruct (Z.eqb_spec n 0) as [->|Hne]; simpl; [done|].
    rewrite pushTokenRequests_spec by lia. simpl. by rewrite Z.sub_0_r. }
  split; [|split; [|split]].
  - unfold accountBalance, toNumber. simpl.
    rewrite bool_decide_true; [done|]. unfold MAX_SAFE_INTEGER in *. lia.
  - done.
  - rewrite Hargs, length_fmap, length_seqZ. done.
  - unfold tokenIdsArgs. simpl. by rewrite Ha.
Qed.

(** C10. For a [null] or [undefined] account the resolved identifier list
    is empty, and the hook returns (any balance reported for the missing
    account being inside the safe integer range); once its loading and
    error flags are down, its [positions] is the empty list. *)
Theorem null_account_empty account :
  account = Null ∨ account = Undefined →
  (∀ b, CallState.result (balanceOfCall None) = Some b →
        - MAX_SAFE_INTEGER ≤ UintResult.item0 b ≤ MAX_SAFE_INTEGER) →
  (∀ deposited tokenIdResults, tokenIds account deposited tokenIdResults = []) ∧
  ∃ r, byOwner account = Return r ∧
       (UseV3PositionsResults.loading r = false →
        UseV3PositionsResults.error r = false →
        UseV3PositionsResults.positions r = Some []).
Proof.
  intros Hacc Hsafe.
  assert (Hundef : orUndefined account = None) by (by destruct Hacc as [-> | ->]).
  assert (Hids : ∀ deposited tokenIdResults, tokenIds account deposited tokenIdResults = []).
  { intros. unfold tokenIds. by rewrite Hundef. }
  split; [done|].
  unfold useV3Positions. rewrite Hundef.
  assert (Hbal : ∃ n, accountBalance (CallState.result (balanceOfCall None)) = Return n).
  { unfold accountBalance, toNumber.
    destruct (CallState.result (balanceOfCall None)) as [b|] eqn:Hb; [|by eexists].
    rewrite bool_decide_true by (by apply Hsafe). simpl. by eexists. }
  destruct Hbal as (n & ->). simpl. rewrite Hids.
  unfold useV3PositionsFromTokenIds.
  destruct (loading_error _ _ _ _) as [l e]. simpl.
  destruct l, e; simpl; eexists; (split; [done|]); simpl; intros Hl He;
    try done; try (by rewrite !orb_true_r in Hl).
Qed.


(** ** Further properties *)

(** *** Pool keys *)

(** X1. On hyphen-free token addresses, two pool keys are equal exactly when
    the token0 addresses, the token1 addresses and the fees are equal,
    whether a token is given as a string or as a [Token]. *)
Theorem toPoolKey_eq_iff (k1 k2 : PoolKey.t) :
  hyphenFree (tokenAddress (PoolKey.token0 k1)) = true →
  hyphenFree (tokenAddress (PoolKey.token1 k1)) = true →
  hyphenFree (tokenAddress (PoolKey.token0 k2)) = true →
  hyphenFree (tokenAddress (PoolKey.token1 k2)) = true →
  toPoolKey k1 = toPoolKey k2 ↔
  tokenAddress (PoolKey.token0 k1) = tokenAddress (PoolKey.token0 k2) ∧
  tokenAddress (PoolKey.token1 k1) = tokenAddress (PoolKey.token1 k2) ∧
  PoolKey.fee k1 = PoolKey.fee k2.
Proof.
  intros H10 H11 H20 H21. split.
  - by apply toPoolKey_inj.
  - intros (E0 & E1 & E2). unfold toPoolKey. by rewrite E0, E1, E2.
Qed.

Lemma append_assoc (s1 s2 s3 : string) : (s1 +:+ s2) +:+ s3 = s1 +:+ s2 +:+ s3.
Proof.
  induction s1 as [|c s1 IH]; [done|]. by rewrite !append_cons, IH.
Qed.

(** X2. Without that restriction the key does not determine the pool: a
    hyphen may move between the token0 and the token1 string without
    changing the key. *)
Theorem toPoolKey_hyphen_collision (a b c : string) (fee : Z) :
  toPoolKey (PoolKey.mk (PoolKey.Str (a +:+ "-" +:+ b)) (PoolKey.Str c) fee) =
  toPoolKey (PoolKey.mk (PoolKey.Str a) (PoolKey.Str (b +:+ "-" +:+ c)) fee).
Proof. unfold toPoolKey. simpl. by rewrite !append_assoc. Qed.

Lemma hyphenFree_append (s1 s2 : string) :
  hyphenFree (s1 +:+ s2) = hyphenFree s1 && hyphenFree s2.
Proof.
  induction s1 as [|c s1 IH]; [done|].
  rewrite append_cons. simpl. by rewrite IH, andb_assoc.
Qed.

(** X3. A pool key always holds a hyphen, so it is never the name of a
    property inherited from [Object.prototype]: reading [memo[key]] reads
    the accumulated groups only. *)
Theorem toPoolKey_not_inherited (pool : PoolKey.t) :
  hyphenFree (toPoolKey pool) = false ∧ toPoolKey pool ∉ objectPrototypeKeys.
Proof.
  assert (Hkey : hyphenFree (toPoolKey pool) = false).
  { unfold toPoolKey. rewrite !hyphenFree_append. simpl.
    by rewrite andb_false_r. }
  split; [done|]. intros Hin.
  assert (Hall : Forall (λ s, hyphenFree s = true) objectPrototypeKeys).
  { unfold objectPrototypeKeys. repeat constructor. }
  rewrite Forall_forall in Hall. apply Hall in Hin. congruence.
Qed.


(** *** Groups of incentives *)

Lemma incentives_fold_nonempty (incs : list Incentive)
    (memo : gmap string (list Incentive)) :
  (∀ k l, memo !! k = Some l → l ≠ []) →
  ∀ k l,
    fold_left
      (λ (memo : gmap string (list Incentive)) incentive,
         let key := toPoolKey (PoolKey.ofPool (incentivePool incentive)) in
         <[key := default [] (memo !! key) ++ [incentive]]> memo)
      incs memo !! k = Some l →
    l ≠ [].
Proof.
  revert memo. induction incs as [|inc incs IH]; intros memo Hmemo k l; simpl.
  - apply Hmemo.
  - apply IH. clear k l. intros k l Hk.
    apply lookup_insert_Some in Hk as [[_ <-] | [_ Hk]].
    + intros Hnil. by apply app_eq_nil in Hnil as [_ ?].
    + by eapply Hmemo.
Qed.

(** X4. A key has a group exactly when some incentive of the source list has
    that key; the group is then non-empty and lists those incentives in
    source order. *)
Theorem incentive_groups (incentives : option (list Incentive)) (k : string) :
  let groups := incentivesByPoolKey incentivePool incentives in
  let matching :=
    filter (λ inc, toPoolKey (PoolKey.ofPool (incentivePool inc)) = k)
           (default [] incentives) in
  (∀ l, groups !! k = Some l → l = matching ∧ l ≠ []) ∧
  (groups !! k = None ↔ matching = []).
Proof.
  intros groups matching.
  pose proof (incentivesByPoolKey_lookup incentives k) as Hlookup.
  fold groups matching in Hlookup.
  assert (Hne : ∀ l, groups !! k = Some l → l ≠ []).
  { unfold groups, incentivesByPoolKey. destruct incentives as [incs|].
    - intros l. apply incentives_fold_nonempty. intros k' l' Hk'.
      by rewrite lookup_empty in Hk'.
    - intros l Hl. by rewrite lookup_empty in Hl. }
  split.
  - intros l Hl. split; [|by apply Hne]. by rewrite Hl in Hlookup.
  - split.
    + intros Hnone. by rewrite Hnone in Hlookup.
    + intros Hnil. destruct (groups !! k) as [l|] eqn:Hl; [|done].
      simpl in Hlookup. destruct (Hne l eq_refl). congruence.
Qed.

Lemma incentives_fold_flatten (incs : list Incentive)
    (memo : gmap string (list Incentive)) :
  mjoin (snd <$> map_to_list
    (fold_left
       (λ (memo : gmap string (list Incentive)) incentive,
          let key := toPoolKey (PoolKey.ofPool (incentivePool incentive)) in
          <[key := default [] (memo !! key) ++ [incentive]]> memo)
       incs memo))
  ≡ₚ mjoin (snd <$> map_to_list memo) ++ incs.
Proof.
  revert memo. induction incs as [|inc incs IH]; intros memo; simpl.
  - by rewrite app_nil_r.
  - rewrite IH. clear IH.
    set (key := toPoolKey (PoolKey.ofPool (incentivePool inc))).
    change (inc :: incs) with ([inc] ++ incs). rewrite app_assoc.
    apply Permutation_app_tail.
    destruct (memo !! key) as [l|] eqn:Hkey; simpl.
    + rewrite <- insert_delete_eq.
      rewrite map_to_list_insert by apply lookup_delete_eq.
      rewrite <- (map_to_list_delete memo key l Hkey). simpl.
      rewrite <- !app_assoc. apply Permutation_app_head, Permutation_app_comm.
    + rewrite map_to_list_insert by done. simpl.
      apply Permutation_cons_append.
Qed.

(** X5. Grouping neither loses nor repeats an incentive: the groups of the
    map, taken together, are a rearrangement of the source list. *)
Theorem incentive_groups_flatten (incentives : option (list Incentive)) :
  mjoin (snd <$> map_to_list (incentivesByPoolKey incentivePool incentives))
  ≡ₚ default [] incentives.
Proof.
  unfold incentivesByPoolKey. destruct incentives as [incs|]; simpl.
  - by rewrite incentives_fold_flatten, map_to_list_empty.
  - by rewrite map_to_list_empty.
Qed.


(** *** When the positions hook throws, and what it keeps *)

Lemma mapi_from_Throw {A B} (f : A → nat → js B) l :
  ∀ i e, mapi_from f i l = Throw e →
    ∃ (k : nat) x, l !! k = Some x ∧ f x (i + k)%nat = Throw e.
Proof.
  induction l as [|x l IH]; intros i e H; [discriminate H|].
  simpl in H. destruct (f x i) as [y|e'] eqn:Hy; simpl in H.
  - destruct (mapi_from f (S i) l) as [ys|e''] eqn:Hys; simpl in H; [discriminate H|].
    injection H as ->. destruct (IH _ _ Hys) as (k & x' & Hk & Hf).
    exists (S k), x'. split; [done|]. by rewrite Nat.add_succ_r.
  - injection H as ->. exists 0%nat, x. split; [done|]. by rewrite Nat.add_0_r.
Qed.

(** The callback throws only by reading a missing batch entry. *)
Lemma toPosition_Throw owners infos deps (byKey : gmap string (list Incentive))
    (t : Z) (i : nat) e :
  toPosition owners infos deps byKey t i = Throw e →
  e = TypeError ∧ (owners !! i = None ∨ infos !! i = None ∨ deps !! i = None).
Proof.
  unfold toPosition, resultAt. intros H.
  destruct (owners !! i) as [co|]; simpl in H; [|injection H as <-; auto].
  destruct (infos !! i) as [ci|]; simpl in H; [|injection H as <-; auto].
  destruct (deps !! i) as [cd|]; simpl in H; [|injection H as <-; auto].
  destruct (CallState.result ci); [|discriminate H].
  destruct (negb _); discriminate H.
Qed.

(** X6. With both flags down, the hook throws a [TypeError] exactly when one
    of the three batches holds fewer call states than there are identifiers
    (it reads [result] off a missing entry); otherwise it returns a
    positions list. *)
Theorem fromTokenIds_throws (ids : list Z) :
  let infos := positionsCalls (inputs (Some ids)) in
  let owners := ownerOfCalls (inputs (Some ids)) in
  let deps := depositsCalls (inputs (Some ids)) in
  let short :=
    (length owners < length ids ∨ length infos < length ids ∨
     length deps < length ids)%nat in
  loading_error infos owners deps (AllIncentives.loading useAllIncentives)
    = (false, false) →
  (short → fromTokenIds (Some ids) = Throw TypeError) ∧
  (¬ short →
     ∃ ps, fromTokenIds (Some ids) =
             Return (UseV3PositionsResults.mk false false (Some ps))) ∧
  (∀ e, fromTokenIds (Some ids) = Throw e → e = TypeError ∧ short).
Proof.
  intros infos owners deps short Hflags.
  set (byKey := incentivesByPoolKey incentivePool (AllIncentives.incentives useAllIncentives)).
  assert (Hhook : fromTokenIds (Some ids) =
            (rs ← array_map (toPosition owners infos deps byKey) ids;
             Return (UseV3PositionsResults.mk false false (Some (filterNull rs))))).
  { unfold useV3PositionsFromTokenIds. fold infos owners deps. rewrite Hflags.
    fold byKey. unfold positions. simpl.
    by destruct (array_map _ ids). }
  assert (Hthrow : ∀ e, array_map (toPosition owners infos deps byKey) ids = Throw e →
                        e = TypeError ∧ short).
  { intros e He. apply mapi_from_Throw in He as (k & x & Hk & Hf). simpl in Hf.
    apply toPosition_Throw in Hf as [-> Hnone]. split; [done|].
    apply lookup_lt_Some in Hk. unfold short.
    rewrite !lookup_ge_None in Hnone. lia. }
  rewrite Hhook. split; [|split].
  - intros Hshort.
    destruct (array_map _ ids) as [rs|e] eqn:Hmap; simpl.
    + exfalso. pose proof (mapi_from_length _ _ _ _ Hmap) as Hlen.
      assert (Hin : ∀ k : nat, (k < length ids)%nat →
                is_Some (owners !! k) ∧ is_Some (infos !! k) ∧ is_Some (deps !! k)).
      { intros k Hk. destruct (lookup_lt_is_Some_2 rs k) as (y & Hy); [lia|].
        destruct (mapi_from_lookup _ _ _ _ _ _ Hmap Hy) as (x & _ & Hf). simpl in Hf.
        unfold toPosition, resultAt in Hf.
        destruct (owners !! k); [|discriminate Hf].
        destruct (infos !! k); [|discriminate Hf].
        destruct (deps !! k); [|discriminate Hf]. eauto. }
      destruct Hshort as [Hs | [Hs | Hs]].
      * destruct (Hin (length owners) Hs) as (Ho & _ & _).
        apply lookup_lt_is_Some in Ho. lia.
      * destruct (Hin (length infos) Hs) as (_ & Hi & _).
        apply lookup_lt_is_Some in Hi. lia.
      * destruct (Hin (length deps) Hs) as (_ & _ & Hd).
        apply lookup_lt_is_Some in Hd. lia.
    + by destruct (Hthrow e eq_refl) as [-> _].
  - intros Hlong.
    destruct (array_map _ ids) as [rs|e] eqn:Hmap; simpl; [by eexists|].
    by destruct (Hthrow e eq_refl) as [_ ?].
  - intros e He.
    destruct (array_map _ ids) as [rs|e'] eqn:Hmap; simpl in He; [discriminate He|].
    injection He as ->. by apply Hthrow.
Qed.

(** X7. The owner of a produced position is never undefined nor the empty
    string, and a position flagged [depositedInStaker] never reports the
    zero address as its owner. *)
Theorem owner_never_blank tokenIds r ps (p : Position) :
  fromTokenIds tokenIds = Return r →
  UseV3PositionsResults.positions r = Some ps →
  p ∈ ps →
  ∃ o, PositionDetails.owner p = Some o ∧ o ≠ "" ∧
       (PositionDetails.depositedInStaker p = true → o ≠ AddressZero).
Proof.
  intros Hr Hps Hp.
  destruct (fromTokenIds_origin _ _ _ _ Hr Hps Hp) as (ids & i & t & _ & _ & Hf).
  destruct (toPosition_Some_inv _ _ _ _ _ _ _ Hf)
    as (co & ci & cd & o & info & _ & _ & _ & _ & Hne & _ & _ & _ & _ & _ & _ & _
        & Hstaked & Howner & _).
  simpl in Hstaked. rewrite Howner.
  destruct (PositionDetails.depositedInStaker p).
  - symmetry in Hstaked. apply andb_true_iff in Hstaked as [Ht Hz].
    apply bool_decide_eq_true in Hz.
    destruct (CallState.result cd) as [d|]; simpl in *; [|done].
    exists (AddressResult.item0 d). split; [done|]. split.
    + apply negb_true_iff in Ht. by apply String.eqb_neq.
    + intros _ ?. apply Hz. by f_equal.
  - exists (AddressResult.item0 o). by repeat split.
Qed.


(** Which identifier, if any, the callback keeps at an index. *)
Lemma toPosition_keeps owners infos deps (byKey : gmap string (list Incentive))
    (t : Z) (i : nat) co ci y :
  owners !! i = Some co → infos !! i = Some ci →
  toPosition owners infos deps byKey t i = Return y →
  PositionDetails.tokenId <$> y =
    if truthy (AddressResult.item0 <$> CallState.result co) &&
       bool_decide (is_Some (CallState.result ci))
    then Some t else None.
Proof.
  intros Hco Hci. unfold toPosition, resultAt. rewrite Hco, Hci. simpl.
  destruct (deps !! i) as [cd|]; simpl; [|discriminate].
  destruct (CallState.result ci) as [info|]; simpl.
  - rewrite andb_true_r.
    destruct (truthy (AddressResult.item0 <$> CallState.result co)); simpl;
      by intros [= <-].
  - rewrite andb_false_r. by intros [= <-].
Qed.

Lemma mapi_from_keeps owners infos deps (byKey : gmap string (list Incentive)) ids :
  ∀ i rs,
    mapi_from (toPosition owners infos deps byKey) i ids = Return rs →
    PositionDetails.tokenId <$> filterNull rs =
    omap (λ x : Z * (CallState.t AddressResult.t * CallState.t PositionsResult.t),
            if truthy (AddressResult.item0 <$> CallState.result x.2.1) &&
               bool_decide (is_Some (CallState.result x.2.2))
            then Some x.1 else None)
         (zip ids (zip (drop i owners) (drop i infos))).
Proof.
  induction ids as [|t ids IH]; intros i rs Hmap.
  - by injection Hmap as <-.
  - apply mapi_from_cons_Return in Hmap as (y & ys & Hy & Hys & ->).
    assert (Hin : ∃ co ci, owners !! i = Some co ∧ infos !! i = Some ci).
    { unfold toPosition, resultAt in Hy.
      destruct (owners !! i) as [co|]; [|discriminate Hy].
      destruct (infos !! i) as [ci|]; [|discriminate Hy]. eauto. }
    destruct Hin as (co & ci & Hco & Hci).
    rewrite (drop_S owners co i Hco), (drop_S infos ci i Hci). simpl.
    pose proof (toPosition_keeps _ _ _ _ _ _ _ _ _ Hco Hci Hy) as Hkeep.
    specialize (IH _ _ Hys).
    destruct (truthy _ && _); destruct y as [p|]; simpl in Hkeep; try discriminate.
    + injection Hkeep as Hid. unfold filterNull. simpl. rewrite Hid.
      f_equal. apply IH.
    + apply IH.
Qed.

(** X8. With one call state per identifier and both flags down, the output
    holds a position for exactly the identifiers whose owner item is a
    non-empty string and whose details result is present, in input order:
    nothing else is dropped. *)
Theorem kept_identifiers (ids : list Z) :
  let infos := positionsCalls (inputs (Some ids)) in
  let owners := ownerOfCalls (inputs (Some ids)) in
  let deps := depositsCalls (inputs (Some ids)) in
  (length ids ≤ length infos)%nat →
  (length ids ≤ length owners)%nat →
  (length ids ≤ length deps)%nat →
  loading_error infos owners deps (AllIncentives.loading useAllIncentives)
    = (false, false) →
  ∃ ps,
    fromTokenIds (Some ids) = Return (UseV3PositionsResults.mk false false (Some ps)) ∧
    PositionDetails.tokenId <$> ps =
    omap (λ x : Z * (CallState.t AddressResult.t * CallState.t PositionsResult.t),
            if truthy (AddressResult.item0 <$> CallState.result x.2.1) &&
               bool_decide (is_Some (CallState.result x.2.2))
            then Some x.1 else None)
         (zip ids (zip owners infos)).
Proof.
  intros infos owners deps Hli Hlo Hld Hflags.
  set (byKey := incentivesByPoolKey incentivePool (AllIncentives.incentives useAllIncentives)).
  destruct (mapi_from_total (toPosition owners infos deps byKey) ids 0%nat) as (rs & Hrs).
  { intros k x Hk. apply lookup_lt_Some in Hk.
    destruct (lookup_lt_is_Some_2 owners k) as (co & Hco); [lia|].
    destruct (lookup_lt_is_Some_2 infos k) as (ci & Hci); [lia|].
    destruct (lookup_lt_is_Some_2 deps k) as (cd & Hcd); [lia|].
    by destruct (toPosition_in_range owners infos deps byKey x k co ci cd). }
  exists (filterNull rs). split.
  - unfold useV3PositionsFromTokenIds. fold infos owners deps. rewrite Hflags.
    fold byKey. unfold positions, array_map. simpl. by rewrite Hrs.
  - by rewrite (mapi_from_keeps _ _ _ _ _ _ _ Hrs).
Qed.

(** X9. The incentives of a produced position are a sublist of the source
    list, each of them has the position's pool key, and two produced
    positions with the same token0, token1 and fee carry the same
    incentives. *)
Theorem incentives_by_pool tokenIds r ps (p : Position) :
  fromTokenIds tokenIds = Return r →
  UseV3PositionsResults.positions r = Some ps →
  p ∈ ps →
  let key (q : Position) :=
    toPoolKey (PoolKey.mk (PoolKey.Str (PositionDetails.token0 q))
                          (PoolKey.Str (PositionDetails.token1 q))
                          (PositionDetails.fee q)) in
  PositionDetails.incentives p
    `sublist_of` default [] (AllIncentives.incentives useAllIncentives) ∧
  (∀ inc, inc ∈ PositionDetails.incentives p →
          toPoolKey (PoolKey.ofPool (incentivePool inc)) = key p) ∧
  (∀ q, q ∈ ps →
        PositionDetails.token0 q = PositionDetails.token0 p →
        PositionDetails.token1 q = PositionDetails.token1 p →
        PositionDetails.fee q = PositionDetails.fee p →
        PositionDetails.incentives q = PositionDetails.incentives p).
Proof.
  intros Hr Hps Hp key.
  assert (Hinc : ∀ q, q ∈ ps →
            PositionDetails.incentives q =
            filter (λ inc, toPoolKey (PoolKey.ofPool (incentivePool inc)) = key q)
                   (default [] (AllIncentives.incentives useAllIncentives))).
  { intros q Hq.
    destruct (fromTokenIds_origin _ _ _ _ Hr Hps Hq) as (ids & i & t & _ & _ & Hf).
    apply toPosition_Some_inv in Hf
      as (_ & _ & _ & _ & _ & _ & _ & _ & _ & _ & _ & _ & _ & _ & _ & _ & _ & _ & _ & Hq').
    by rewrite Hq', incentivesByPoolKey_lookup. }
  split; [|split].
  - rewrite (Hinc p Hp). apply sublist_filter.
  - intros inc. rewrite (Hinc p Hp). by intros [? _]%list_elem_of_filter.
  - intros q Hq E0 E1 E2. rewrite (Hinc p Hp), (Hinc q Hq).
    unfold key. by rewrite E0, E1, E2.
Qed.

(** *** [useV3PositionFromTokenId] *)

(** X10. The single-position hook reports a position only for the
    identifier it was given and only with its loading flag down; without an
    identifier it returns with no position, and while loading it reports no
    position. *)
Theorem single_position (tokenId : option Z) :
  (∀ r,
     useV3PositionFromTokenId incentivePool positionsCalls ownerOfCalls depositsCalls
       useAllIncentives tokenId = Return r →
     (∀ p, UseV3PositionResults.position r = Some p →
           tokenId = Some (PositionDetails.tokenId p) ∧
           UseV3PositionResults.loading r = false) ∧
     (UseV3PositionResults.loading r = true → UseV3PositionResults.position r = None)) ∧
  (tokenId = None →
     ∃ r,
       useV3PositionFromTokenId incentivePool positionsCalls ownerOfCalls depositsCalls
         useAllIncentives None = Return r ∧
       UseV3PositionResults.position r = None).
Proof.
  split.
  - intros r Hr. unfold useV3PositionFromTokenId in Hr.
    apply js_bind_Return in Hr as (r' & Hr' & [= <-]). simpl.
    pose proof (fromTokenIds_Return_inv _ _ Hr') as [_ Hpos].
    assert (Hsome : ∀ p, UseV3PositionsResults.positions r' ≫= head = Some p →
              tokenId = Some (PositionDetails.tokenId p) ∧
              UseV3PositionsResults.loading r' = false).
    { intros p Hp.
      destruct (UseV3PositionsResults.positions r') as [ps|] eqn:Hps; [|discriminate Hp].
      simpl in Hp. apply head_Some_elem_of in Hp.
      destruct (fromTokenIds_origin _ _ _ _ Hr' Hps Hp) as (ids & i & t & Hids & Ht & Hf).
      apply positions_Some_inv in Hpos as (_ & _ & _ & Hl & _).
      split; [|done].
      apply toPosition_Some_inv in Hf
        as (_ & _ & _ & _ & _ & _ & _ & _ & _ & _ & _ & Hid & _).
      destruct tokenId as [t'|]; simpl in Hids; [|discriminate Hids].
      injection Hids as <-.
      destruct i as [|i]; simpl in Ht; [|discriminate Ht].
      injection Ht as ->. by rewrite Hid. }
    split; [done|].
    intros Hl. destruct (UseV3PositionsResults.positions r' ≫= head) as [p|] eqn:Hp; [|done].
    destruct (Hsome p eq_refl) as [_ Hl']. congruence.
  - intros _. unfold useV3PositionFromTokenId, useV3PositionsFromTokenIds.
    destruct (loading_error _ _ _ _) as [l e]. simpl. by eexists.
Qed.


(** *** [useV3Positions] and the pool filter on top of it *)

Lemma fromTokenIds_sublist tokenIds r ps :
  fromTokenIds tokenIds = Return r →
  UseV3PositionsResults.positions r = Some ps →
  ∃ ids, tokenIds = Some ids ∧
         UseV3PositionsResults.loading r = false ∧
         (PositionDetails.tokenId <$> ps) `sublist_of` ids.
Proof.
  intros Hr Hps.
  apply fromTokenIds_Return_inv in Hr as [_ Hpos]. rewrite Hps in Hpos.
  apply positions_Some_inv in Hpos as (ids & rs & Hids & Hl & _ & Hmap & ->).
  exists ids. split; [done|]. split; [done|].
  clear Hps Hids. unfold array_map in Hmap.
  revert Hmap. generalize 0%nat. revert rs.
  induction ids as [|x ids IH]; intros rs i Hmap.
  - by injection Hmap as <-.
  - apply mapi_from_cons_Return in Hmap as (y & ys & Hy & Hys & ->).
    destruct y as [p|]; simpl.
    + apply toPosition_Some_inv in Hy
        as (_ & _ & _ & _ & _ & _ & _ & _ & _ & _ & _ & Hid & _).
      rewrite Hid. apply sublist_skip. by eapply IH.
    + apply sublist_cons. by eapply IH.
Qed.

(** What a returning [useV3Positions] went through: the balance was read,
    the index requests were issued for it, and the inner hook returned on
    the resolved identifiers. *)
Lemma byOwner_Return_inv account r :
  byOwner account = Return r →
  ∃ n r',
    accountBalance (CallState.result (balanceOfCall (orUndefined account))) = Return n ∧
    let results := tokenOfOwnerByIndexCalls (tokenIdsArgs account n) in
    let deposited := useDepositedTokenIds account in
    fromTokenIds (Some (tokenIds account (DepositedTokenIds.tokenIds deposited) results))
      = Return r' ∧
    UseV3PositionsResults.loading r =
      someTokenIdsLoading LOADING (DepositedTokenIds.state deposited) results
      || CallState.loading (balanceOfCall (orUndefined account))
      || UseV3PositionsResults.loading r' ∧
    UseV3PositionsResults.error r = UseV3PositionsResults.error r' ∧
    UseV3PositionsResults.positions r = UseV3PositionsResults.positions r'.
Proof.
  unfold useV3Positions. intros H.
  apply js_bind_Return in H as (n & Hn & H).
  apply js_bind_Return in H as (r' & Hr' & [= <-]).
  by exists n, r'.
Qed.

(** X11. Every position [useV3Positions] reports carries an identifier that
    was resolved for the account: the identifiers of the output are the
    resolved list with some entries dropped, so each is an available result
    of the index-based enumeration or a deposited identifier, and a falsy
    account reports no position. *)
Theorem byOwner_positions_resolved account r ps :
  byOwner account = Return r →
  UseV3PositionsResults.positions r = Some ps →
  ∃ n,
    accountBalance (CallState.result (balanceOfCall (orUndefined account))) = Return n ∧
    let results := tokenOfOwnerByIndexCalls (tokenIdsArgs account n) in
    let deposited := DepositedTokenIds.tokenIds (useDepositedTokenIds account) in
    (PositionDetails.tokenId <$> ps) `sublist_of` tokenIds account deposited results ∧
    (∀ p, p ∈ ps →
       truthy (orUndefined account) = true ∧
       (PositionDetails.tokenId p
          ∈ omap (λ c, UintResult.item0 <$> CallState.result c) results ∨
        PositionDetails.tokenId p ∈ default [] deposited)).
Proof.
  intros Hr Hps.
  apply byOwner_Return_inv in Hr as (n & r' & Hn & Hr' & _ & _ & Hpos).
  rewrite Hps in Hpos. symmetry in Hpos.
  destruct (fromTokenIds_sublist _ _ _ Hr' Hpos) as (ids & [= <-] & _ & Hsub).
  exists n. split; [done|]. simpl. split; [done|].
  intros p Hp.
  assert (Hin : PositionDetails.tokenId p ∈
            tokenIds account (DepositedTokenIds.tokenIds (useDepositedTokenIds account))
              (tokenOfOwnerByIndexCalls (tokenIdsArgs account n))).
  { apply (sublist_subseteq _ _ Hsub). by apply list_elem_of_fmap_2. }
  unfold tokenIds in Hin.
  destruct (truthy (orUndefined account)); [|by apply elem_of_nil in Hin].
  split; [done|].
  apply elem_of_app in Hin as [Hin | Hin].
  - left. revert Hin. generalize (tokenOfOwnerByIndexCalls (tokenIdsArgs account n)).
    intros results. induction results as [|c results IH]; simpl; [done|].
    destruct (CallState.result c); simpl; [|done].
    rewrite !elem_of_cons. intros [-> | ?]; [by left | right; by apply IH].
  - right. destruct (DepositedTokenIds.tokenIds _) as [d|]; simpl in *; [|done].
    unfold BigNumber_from in Hin. by rewrite map_id in Hin.
Qed.

(** X12. The loading flag of [useV3Positions] is up exactly when the
    deposited identifiers are loading, an index request is loading, the
    balance call is loading, the incentives are loading or a call of the
    three position batches is loading. Its error flag is up exactly when a
    call of the three position batches errored: an errored balance call or
    index request does not raise it. *)
Theorem byOwner_flags account r :
  byOwner account = Return r →
  ∃ n,
    accountBalance (CallState.result (balanceOfCall (orUndefined account))) = Return n ∧
    let results := tokenOfOwnerByIndexCalls (tokenIdsArgs account n) in
    let deposited := useDepositedTokenIds account in
    let ids := Some (tokenIds account (DepositedTokenIds.tokenIds deposited) results) in
    (UseV3PositionsResults.loading r = true ↔
       DepositedTokenIds.state deposited = LOADING ∨
       (∃ c, c ∈ results ∧ CallState.loading c = true) ∨
       CallState.loading (balanceOfCall (orUndefined account)) = true ∨
       AllIncentives.loading useAllIncentives = true ∨
       (∃ c, c ∈ positionsCalls (inputs ids) ∧ CallState.loading c = true) ∨
       (∃ c, c ∈ ownerOfCalls (inputs ids) ∧ CallState.loading c = true) ∨
       (∃ c, c ∈ depositsCalls (inputs ids) ∧ CallState.loading c = true)) ∧
    (UseV3PositionsResults.error r = true ↔
       (∃ c, c ∈ positionsCalls (inputs ids) ∧ CallState.error c = true) ∨
       (∃ c, c ∈ ownerOfCalls (inputs ids) ∧ CallState.error c = true) ∨
       (∃ c, c ∈ depositsCalls (inputs ids) ∧ CallState.error c = true)).
Proof.
  intros Hr.
  apply byOwner_Return_inv in Hr as (n & r' & Hn & Hr' & Hl & He & _).
  exists n. split; [done|]. simpl in *.
  apply fromTokenIds_Return_inv in Hr' as [Hflags _].
  pose proof (loading_error_spec
    (positionsCalls (inputs (Some (tokenIds account
       (DepositedTokenIds.tokenIds (useDepositedTokenIds account))
       (tokenOfOwnerByIndexCalls (tokenIdsArgs account n))))))
    (ownerOfCalls (inputs (Some (tokenIds account
       (DepositedTokenIds.tokenIds (useDepositedTokenIds account))
       (tokenOfOwnerByIndexCalls (tokenIdsArgs account n))))))
    (depositsCalls (inputs (Some (tokenIds account
       (DepositedTokenIds.tokenIds (useDepositedTokenIds account))
       (tokenOfOwnerByIndexCalls (tokenIdsArgs account n))))))
    (AllIncentives.loading useAllIncentives)) as [Hsl Hse].
  rewrite Hflags in Hsl, Hse. simpl in Hsl, Hse.
  rewrite Hl, He. split; [|done].
  unfold someTokenIdsLoading.
  rewrite !orb_true_iff, bool_decide_eq_true, existsb_elem, Hsl. tauto.
Qed.

(** X13. A balance outside the safe integer range makes [useV3Positions]
    throw, and [useV3PositionsForPool] with it. *)
Theorem balance_overflow_throws account (pool : option Pool.t) b :
  CallState.result (balanceOfCall (orUndefined account)) = Some b →
  UintResult.item0 b < - MAX_SAFE_INTEGER ∨ MAX_SAFE_INTEGER < UintResult.item0 b →
  byOwner account = Throw NumericFault ∧
  forPool account pool = Throw NumericFault.
Proof.
  intros Hb Hout.
  assert (Hthrow : byOwner account = Throw NumericFault).
  { unfold useV3Positions, accountBalance, toNumber. rewrite Hb.
    rewrite bool_decide_false by lia. done. }
  split; [done|]. unfold useV3PositionsForPool. by rewrite Hthrow.
Qed.

(** X14. The pool filter returns range buckets only while the owner's
    identifiers are still being resolved: the deposited identifiers, an
    index request or the balance call is loading, whereas the incentives
    are not. With every collaborator settled it returns no buckets. *)
Theorem buckets_only_while_resolving account (pool : option Pool.t) q :
  forPool account pool = Return q →
  is_Some (PositionsForPoolResults.inRangePositions q) ∨
  is_Some (PositionsForPoolResults.outOfRangePositions q) →
  ∃ n,
    accountBalance (CallState.result (balanceOfCall (orUndefined account))) = Return n ∧
    let results := tokenOfOwnerByIndexCalls (tokenIdsArgs account n) in
    (DepositedTokenIds.state (useDepositedTokenIds account) = LOADING ∨
     (∃ c, c ∈ results ∧ CallState.loading c = true) ∨
     CallState.loading (balanceOfCall (orUndefined account)) = true) ∧
    AllIncentives.loading useAllIncentives = false.
Proof.
  unfold useV3PositionsForPool. intros Hq Hbuckets.
  apply js_bind_Return in Hq as (r & Hr & Hq).
  assert (Hguard : UseV3PositionsResults.loading r = true ∧
                   is_Some (UseV3PositionsResults.positions r)).
  { destruct (UseV3PositionsResults.positions r) as [ps|], pool as [pl|];
      try (injection Hq as <-; by destruct Hbuckets as [[? ?] | [? ?]]).
    destruct (UseV3PositionsResults.loading r); simpl in Hq; [by eauto|].
    injection Hq as <-. by destruct Hbuckets as [[? ?] | [? ?]]. }
  destruct Hguard as [Hl [ps Hps]].
  apply byOwner_Return_inv in Hr as (n & r' & Hn & Hr' & Hl' & _ & Hpos).
  simpl in *. exists n. split; [done|].
  rewrite Hps in Hpos. symmetry in Hpos.
  destruct (fromTokenIds_sublist _ _ _ Hr' Hpos) as (ids & _ & Hinner & _).
  apply fromTokenIds_Return_inv in Hr' as [Hflags _].
  rewrite Hinner in Hflags. unfold loading_error in Hflags.
  injection Hflags as Hfl _.
  apply orb_false_iff in Hfl as [Hinc _].
  split; [|done].
  rewrite Hl, Hinner, orb_false_r in Hl'. symmetry in Hl'.
  unfold someTokenIdsLoading in Hl'.
  rewrite !orb_true_iff, bool_decide_eq_true, existsb_elem in Hl'. tauto.
Qed.


(** X15. No index request is issued for a falsy account, for a balance that
    is not yet known, or for a balance of zero or below; in every other case
    at least one is. *)
Theorem no_index_requests account (balance : option Z) :
  tokenIdsArgs account balance = [] ↔
  truthy (orUndefined account) = false ∨ balance = None ∨
  (∃ n, balance = Some n ∧ n ≤ 0).
Proof.
  unfold tokenIdsArgs.
  destruct balance as [n|]; [|by intuition].
  destruct account as [| |a]; simpl; [by intuition..|].
  destruct (String.eqb a "") eqn:Ha; simpl.
  - rewrite andb_false_r. by intuition.
  - rewrite andb_true_r. destruct (Z.eqb_spec n 0) as [->|Hne]; simpl.
    + split; [|done]. intros _. right. right. by exists 0.
    + rewrite pushTokenRequests_spec by lia. simpl. rewrite Z.sub_0_r. split.
      * intros Hnil. right. right. exists n. split; [done|].
        apply fmap_nil_inv in Hnil.
        apply (f_equal length) in Hnil. rewrite length_seqZ in Hnil. simpl in Hnil. lia.
      * intros [? | [? | (n' & [= <-] & ?)]]; [done..|].
        by rewrite seqZ_nil by lia.
Qed.

(** *** Repeated identifiers *)

Lemma mapi_from_pure {A B} (f : A → nat → js B) (g : A → B) l :
  ∀ i, (∀ (k : nat) x, l !! k = Some x → f x (i + k)%nat = Return (g x)) →
       mapi_from f i l = Return (g <$> l).
Proof.
  induction l as [|x l IH]; intros i H; [done|].
  simpl. rewrite <- (Nat.add_0_r i) at 1. rewrite (H 0%nat x eq_refl). simpl.
  rewrite (IH (S i)); [done|].
  intros k x' Hk. replace (S i + k)%nat with (i + S k)%nat by lia. by apply H.
Qed.

(** X16. When the multicall hooks answer each input by its own call state,
    an identifier that occurs twice in the input list is reported twice: a
    position produced for it occurs at both places of the output. *)
Theorem repeated_identifier_reported_twice
    (pc : list Z → CallState.t PositionsResult.t)
    (oc dc : list Z → CallState.t AddressResult.t)
    (t : Z) (l1 l2 l3 : list Z) r ps (p : Position) :
  (∀ inputs, positionsCalls inputs = pc <$> inputs) →
  (∀ inputs, ownerOfCalls inputs = oc <$> inputs) →
  (∀ inputs, depositsCalls inputs = dc <$> inputs) →
  fromTokenIds (Some (l1 ++ t :: l2 ++ t :: l3)) = Return r →
  UseV3PositionsResults.positions r = Some ps →
  p ∈ ps →
  PositionDetails.tokenId p = t →
  ∃ ps1 ps2 ps3, ps = ps1 ++ p :: ps2 ++ p :: ps3.
Proof.
  intros Hpc Hoc Hdc Hr Hps Hp Hid.
  set (ids := l1 ++ t :: l2 ++ t :: l3) in *.
  set (byKey := incentivesByPoolKey incentivePool (AllIncentives.incentives useAllIncentives)).
  set (g := λ x : Z,
         match toPosition [oc [x]] [pc [x]] [dc [x]] byKey x 0%nat with
         | Return y => y
         | Throw _ => None
         end).
  assert (Hg : ∀ (k : nat) x, ids !! k = Some x →
            toPosition (ownerOfCalls (inputs (Some ids))) (positionsCalls (inputs (Some ids)))
              (depositsCalls (inputs (Some ids))) byKey x k = Return (g x)).
  { intros k x Hk. unfold g, toPosition, resultAt.
    rewrite Hpc, Hoc, Hdc. simpl. rewrite !list_lookup_fmap, Hk. simpl.
    destruct (CallState.result (pc [x])); [|done].
    by destruct (negb _). }
  pose proof (fromTokenIds_Return_inv _ _ Hr) as [_ Hpos]. rewrite Hps in Hpos.
  apply positions_Some_inv in Hpos as (ids' & rs & [= <-] & _ & _ & Hmap & Hfilter).
  unfold array_map in Hmap. rewrite (mapi_from_pure _ g) in Hmap by done.
  injection Hmap as <-.
  assert (Homap : ps = omap g ids).
  { rewrite Hfilter. unfold filterNull. clear.
    induction ids as [|x ids IH]; [done|]. simpl.
    destruct (g x); simpl; [f_equal|]; apply IH. }
  assert (Hgt : g t = Some p).
  { rewrite Homap in Hp. apply list_elem_of_omap in Hp as (x & Hx & Hgx).
    apply list_elem_of_lookup in Hx as (k & Hk).
    pose proof (Hg k x Hk) as Hf. rewrite Hgx in Hf.
    apply toPosition_Some_inv in Hf
      as (_ & _ & _ & _ & _ & _ & _ & _ & _ & _ & _ & Hid' & _).
    congruence. }
  exists (omap g l1), (omap g l2), (omap g l3).
  rewrite Homap. unfold ids.
  rewrite omap_app. simpl. rewrite Hgt, omap_app. simpl. by rewrite Hgt.
Qed.

End Properties.

(** ** Properties of the wallet snippet *)

(** X17. [aptosSwap] submits at most one transaction, and only after the
    wallet reported an account: the transaction is then the [TestCoin]
    transfer of 1 to that same account, and it is the last thing the run
    does. Without a wallet, or with [account()] rejected, nothing is
    submitted. The promise is fulfilled exactly when the wallet reported an
    account and accepted the transaction. *)
Theorem aptosSwap_run {E R} (aptos : Aptos.Nullable (Aptos.Wallet E R)) :
  let run := Aptos.aptosSwap aptos in
  let transfer accountAddress :=
    Aptos.mkTransaction "script_function_payload" "0x1::TestCoin::transfer" []
      (accountAddress, 1) in
  (∀ transaction, Aptos.Submitted transaction ∈ run.1 →
     ∃ wallet accountAddress,
       aptos = Aptos.Present wallet ∧
       Aptos.account wallet = Aptos.Fulfilled accountAddress ∧
       transaction = transfer accountAddress ∧
       run.1 = [Aptos.Logged "Swapping on Aptos"; Aptos.AccountAsked;
                Aptos.Submitted transaction] ∧
       run.2 = match Aptos.signAndSubmitTransaction wallet transaction with
               | Aptos.Fulfilled _ => Aptos.Fulfilled tt
               | Aptos.Rejected r => Aptos.Rejected r
               end) ∧
  (run.2 = Aptos.Fulfilled tt ↔
     ∃ wallet accountAddress response,
       aptos = Aptos.Present wallet ∧
       Aptos.account wallet = Aptos.Fulfilled accountAddress ∧
       Aptos.signAndSubmitTransaction wallet (transfer accountAddress)
         = Aptos.Fulfilled response) ∧
  ((aptos = Aptos.JsNull ∨ aptos = Aptos.JsUndefined) →
     run = ([Aptos.Logged "Swapping on Aptos"], Aptos.Rejected Aptos.PropertyOfNullish)).
Proof.
  intros run transfer. unfold run, Aptos.aptosSwap.
  destruct aptos as [| |wallet]; simpl.
  - split; [|split].
    + intros tx Hin. apply list_elem_of_In in Hin. simpl in Hin.
      by destruct Hin as [?|[]].
    + split; [done|]. by intros (? & ? & ? & ? & _).
    + done.
  - split; [|split].
    + intros tx Hin. apply list_elem_of_In in Hin. simpl in Hin.
      by destruct Hin as [?|[]].
    + split; [done|]. by intros (? & ? & ? & ? & _).
    + done.
  - destruct (Aptos.account wallet) as [a|r] eqn:Ha; simpl.
    + fold (transfer a).
      destruct (Aptos.signAndSubmitTransaction wallet (transfer a)) as [resp|r] eqn:Hs;
        simpl; (split; [|split]).
      * intros tx Hin. apply list_elem_of_In in Hin. simpl in Hin.
        destruct Hin as [?|[?|[[= <-]|[]]]]; try done.
        exists wallet, a. by rewrite Ha, Hs.
      * split; [|done]. intros _. by exists wallet, a, resp.
      * by intros [?|?].
      * intros tx Hin. apply list_elem_of_In in Hin. simpl in Hin.
        destruct Hin as [?|[?|[[= <-]|[]]]]; try done.
        exists wallet, a. by rewrite Ha, Hs.
      * split; [done|]. intros (w & a' & resp & [= <-] & Ha' & Hs').
        rewrite Ha in Ha'. injection Ha' as <-. congruence.
      * by intros [?|?].
    + split; [|split].
      * intros tx Hin. apply list_elem_of_In in Hin. simpl in Hin.
        by destruct Hin as [?|[?|[]]].
      * split; [done|]. intros (w & a' & resp & [= <-] & Ha' & _). congruence.
      * by intros [?|?].
Qed.

(** X18. [accountBalance] resolves to [null] exactly when the account
    resource is [null] or [undefined]; it resolves to a number exactly when
    the resource holds [data.coin.value], and the number is [parseInt] of
    that value; a rejection of the resource lookup is passed on; and in all
    the lookup asks for the [0x1::TestCoin::Balance] resource of the given
    address. *)
Theorem accountBalance_outcomes {E V Num} (parseInt : V → Num)
    (this : Aptos.Client E V) (accountAddress : string) :
  let resource := Aptos.accountResource this accountAddress "0x1::TestCoin::Balance" in
  let balance := Aptos.accountBalance parseInt this accountAddress in
  (balance = Aptos.Fulfilled None ↔
     resource = Aptos.Fulfilled Aptos.JsNull ∨
     resource = Aptos.Fulfilled Aptos.JsUndefined) ∧
  (∀ n, balance = Aptos.Fulfilled (Some n) ↔
     ∃ v, resource =
            Aptos.Fulfilled (Aptos.Present (Aptos.mkResource (Aptos.Present
              (Aptos.mkData (Aptos.Present (Aptos.mkCoin v)))))) ∧
          n = parseInt v) ∧
  (∀ e, balance = Aptos.Rejected (Aptos.Collaborator e) ↔
        resource = Aptos.Rejected (Aptos.Collaborator e)).
Proof.
  intros resource balance. unfold balance, Aptos.accountBalance. fold resource.
  destruct resource as [[| |[[| |[[| |[v]]]]]]|r]; simpl;
    (split; [|split]); intros; split; intros H;
    try done;
    try (by destruct H as [H|H]);
    try (by destruct H as (? & H & ?));
    try (injection H as <-); eauto.
  destruct H as (? & [= <-] & ->). done.
Qed.

(** ** The hooks on the concrete chain state *)

(** C4, as first stated, fails: position 2 matches the pool and has a
    non-numeric lower bound, and the hook puts it in the out-of-range bucket
    instead of leaving it out of both buckets. *)
Lemma nonnumeric_bound_out_of_range :
  PositionDetails.tickLower Sample.position2 = None ∧
  relevant Sample.poolAB Sample.position2 = true ∧
  Sample.forPool (Addr Sample.alice) (Some Sample.poolAB) =
    Return (PositionsForPoolResults.mk false
              (Some [Sample.position1]) (Some [Sample.position2])) ∧
  Sample.position2 ∈ outOfRangePositions Sample.poolAB [Sample.position1; Sample.position2].
Proof.
  split; [reflexivity|]. split; [reflexivity|]. split; [vm_compute; reflexivity|].
  apply list_elem_of_In. vm_compute. left. reflexivity.
Qed.

Lemma sample_fromTokenIds :
  Sample.fromTokenIds (Some [1; 2; 3]) =
  Return (UseV3PositionsResults.mk false false
            (Some [Sample.position1; Sample.position2])).
Proof. vm_compute. reflexivity. Qed.

Lemma sample_byOwner :
  Sample.byOwner (Addr Sample.alice) =
  Return (UseV3PositionsResults.mk true false
            (Some [Sample.position1; Sample.position2])).
Proof. vm_compute. reflexivity. Qed.

Lemma missing_result_dropped_witness :
  ∃ ps,
    Sample.fromTokenIds (Some [1; 2; 3]) =
      Return (UseV3PositionsResults.mk false false (Some ps)) ∧
    ∀ p, p ∈ ps → PositionDetails.tokenId p ≠ 3.
Proof.
  apply (missing_result_dropped Sample.incentivePool Sample.positionsCalls
           Sample.ownerOfCalls Sample.depositsCalls Sample.useAllIncentives
           [1; 2; 3] 3); try reflexivity.
  intros [|[|[|i]]] co ci Hi Hco Hci; simpl in *; try discriminate.
  injection Hco as <-. left. reflexivity.
Defined.

Lemma owner_selection_witness :
  PositionDetails.owner Sample.position2 = Some Sample.alice ∧
  PositionDetails.depositedInStaker Sample.position2 = true.
Proof.
  destruct (owner_selection Sample.incentivePool Sample.positionsCalls
              Sample.ownerOfCalls Sample.depositsCalls Sample.useAllIncentives
              (Some [1; 2; 3]) _ [Sample.position1; Sample.position2] Sample.position2
              sample_fromTokenIds eq_refl)
    as (ids & i & co & cd & o & Hids & Hi & _ & Hcd & _ & Hstaked & _).
  - apply list_elem_of_In. simpl. right. left. reflexivity.
  - injection Hids as <-.
    destruct i as [|[|[|i]]]; simpl in *; try discriminate.
    injection Hcd as <-. apply (Hstaked Sample.alice); [reflexivity|discriminate..].
Defined.

Lemma positions_follow_tokenIds_witness :
  (PositionDetails.tokenId <$> [Sample.position1; Sample.position2])
    `sublist_of` [1; 2; 3].
Proof.
  destruct (positions_follow_tokenIds Sample.incentivePool Sample.positionsCalls
              Sample.ownerOfCalls Sample.depositsCalls Sample.useAllIncentives
              (Some [1; 2; 3]) _ [Sample.position1; Sample.position2]
              sample_fromTokenIds eq_refl)
    as (ids & ks & Hids & _ & _ & _ & _ & Hsub & _).
  injection Hids as <-. exact Hsub.
Defined.

Lemma incentives_attached_witness :
  PositionDetails.incentives Sample.position1 =
  filter (λ inc,
            Token.address (Pool.token0 (Sample.incentivePool inc)) = Sample.tokenA ∧
            Token.address (Pool.token1 (Sample.incentivePool inc)) = Sample.tokenB ∧
            Pool.fee (Sample.incentivePool inc) = 3000)
         [Sample.rewardsAB1; Sample.rewardsAC; Sample.rewardsAB2].
Proof.
  apply (incentives_attached Sample.incentivePool Sample.positionsCalls
           Sample.ownerOfCalls Sample.depositsCalls Sample.useAllIncentives
           (Some [1; 2; 3]) _ [Sample.position1; Sample.position2] Sample.position1
           sample_fromTokenIds eq_refl).
  - apply list_elem_of_In. simpl. left. reflexivity.
  - reflexivity.
  - reflexivity.
  - intros inc Hin. apply list_elem_of_In in Hin. simpl in Hin.
    destruct Hin as [<-|[<-|[<-|[]]]]; split; reflexivity.
Defined.

Lemma pool_filter_guard_witness :
  Sample.forPool (Addr Sample.alice) (Some Sample.poolAB) =
  Return (PositionsForPoolResults.mk false
            (Some (inRangePositions Sample.poolAB [Sample.position1; Sample.position2]))
            (Some (outOfRangePositions Sample.poolAB [Sample.position1; Sample.position2]))).
Proof.
  apply (pool_filter_guard Sample.incentivePool Sample.LOADING Sample.positionsCalls
           Sample.ownerOfCalls Sample.depositsCalls Sample.tokenOfOwnerByIndexCalls
           Sample.balanceOfCall Sample.useAllIncentives Sample.useDepositedTokenIds
           (Addr Sample.alice) (Some Sample.poolAB) _ sample_byOwner);
    reflexivity.
Defined.

Lemma tokenIds_concatenation_witness :
  tokenIds (Addr Sample.alice) (Some [3])
    (Sample.tokenOfOwnerByIndexCalls [(Sample.alice, 0); (Sample.alice, 1)])
  = [1; 3; 3].
Proof.
  apply (tokenIds_concatenation Sample.alice (Some [3])
           (Sample.tokenOfOwnerByIndexCalls [(Sample.alice, 0); (Sample.alice, 1)])).
  discriminate.
Defined.

Lemma index_requests_witness :
  accountBalance (Some (UintResult.mk 2)) = Return (Some 2) ∧
  tokenIdsArgs (Addr Sample.alice) (Some 2) = [(Sample.alice, 0); (Sample.alice, 1)].
Proof.
  destruct (index_requests Sample.alice 2) as (Hbal & _ & _ & Hargs).
  - discriminate.
  - unfold MAX_SAFE_INTEGER. lia.
  - split; [exact Hbal | exact Hargs].
Defined.

Lemma null_account_empty_witness :
  ∃ r, Sample.byOwner Null = Return r ∧
       (UseV3PositionsResults.loading r = false →
        UseV3PositionsResults.error r = false →
        UseV3PositionsResults.positions r = Some []).
Proof.
  apply (null_account_empty Sample.incentivePool Sample.LOADING Sample.positionsCalls
           Sample.ownerOfCalls Sample.depositsCalls Sample.tokenOfOwnerByIndexCalls
           Sample.balanceOfCall Sample.useAllIncentives Sample.useDepositedTokenIds Null).
  - left. reflexivity.
  - intros b Hb. discriminate Hb.
Defined.

Lemma sample_forPool :
  Sample.forPool (Addr Sample.alice) (Some Sample.poolAB) =
  Return (PositionsForPoolResults.mk false
            (Some [Sample.position1]) (Some [Sample.position2])).
Proof. vm_compute. reflexivity. Qed.

Lemma sample_fromTokenIds_repeated :
  Sample.fromTokenIds (Some [1; 2; 1]) =
  Return (UseV3PositionsResults.mk false false
            (Some [Sample.position1; Sample.position2; Sample.position1])).
Proof. vm_compute. reflexivity. Qed.

Lemma toPoolKey_eq_iff_witness :
  toPoolKey (PoolKey.ofPool Sample.poolAB) =
  toPoolKey (PoolKey.mk (PoolKey.Str Sample.tokenA) (PoolKey.Str Sample.tokenB) 3000).
Proof.
  apply toPoolKey_eq_iff; [reflexivity..|]. repeat split.
Defined.

Lemma fromTokenIds_throws_witness :
  Degenerate.fromTokenIds (Some [1]) = Throw TypeError.
Proof.
  apply (fromTokenIds_throws Sample.incentivePool
           (@Degenerate.noCalls (list Z) PositionsResult.t)
           (@Degenerate.noCalls (list Z) AddressResult.t)
           (@Degenerate.noCalls (list Z) AddressResult.t)
           Sample.useAllIncentives [1]).
  - reflexivity.
  - left. simpl. lia.
Defined.

Lemma owner_never_blank_witness :
  ∃ o, PositionDetails.owner Sample.position2 = Some o ∧ o ≠ "" ∧
       (PositionDetails.depositedInStaker Sample.position2 = true → o ≠ AddressZero).
Proof.
  apply (owner_never_blank Sample.incentivePool Sample.positionsCalls
           Sample.ownerOfCalls Sample.depositsCalls Sample.useAllIncentives
           (Some [1; 2; 3]) _ [Sample.position1; Sample.position2] Sample.position2
           sample_fromTokenIds eq_refl).
  apply list_elem_of_In. simpl. right. left. reflexivity.
Defined.

Lemma kept_identifiers_witness :
  ∃ ps,
    Sample.fromTokenIds (Some [1; 2; 3]) =
      Return (UseV3PositionsResults.mk false false (Some ps)) ∧
    PositionDetails.tokenId <$> ps = [1; 2].
Proof.
  destruct (kept_identifiers Sample.incentivePool Sample.positionsCalls
              Sample.ownerOfCalls Sample.depositsCalls Sample.useAllIncentives
              [1; 2; 3]) as (ps & Hps & Hids).
  - simpl. lia.
  - simpl. lia.
  - simpl. lia.
  - reflexivity.
  - exists ps. split; [exact Hps | exact Hids].
Defined.

Lemma incentives_by_pool_witness :
  PositionDetails.incentives Sample.position2 = PositionDetails.incentives Sample.position1.
Proof.
  apply (incentives_by_pool Sample.incentivePool Sample.positionsCalls
           Sample.ownerOfCalls Sample.depositsCalls Sample.useAllIncentives
           (Some [1; 2; 3]) _ [Sample.position1; Sample.position2] Sample.position1
           sample_fromTokenIds eq_refl).
  - apply list_elem_of_In. simpl. left. reflexivity.
  - apply list_elem_of_In. simpl. right. left. reflexivity.
  - reflexivity.
  - reflexivity.
  - reflexivity.
Defined.

Lemma byOwner_positions_resolved_witness :
  (PositionDetails.tokenId <$> [Sample.position1; Sample.position2])
    `sublist_of` [1; 3; 2].
Proof.
  destruct (byOwner_positions_resolved Sample.incentivePool Sample.LOADING
              Sample.positionsCalls Sample.ownerOfCalls Sample.depositsCalls
              Sample.tokenOfOwnerByIndexCalls Sample.balanceOfCall
              Sample.useAllIncentives Sample.useDepositedTokenIds
              (Addr Sample.alice) _ [Sample.position1; Sample.position2]
              sample_byOwner eq_refl) as (n & Hn & Hsub & _).
  vm_compute in Hn. injection Hn as <-. exact Hsub.
Defined.

Lemma byOwner_flags_witness :
  ∃ n, accountBalance (CallState.result (Sample.balanceOfCall (Some Sample.alice)))
       = Return n.
Proof.
  destruct (byOwner_flags Sample.incentivePool Sample.LOADING
              Sample.positionsCalls Sample.ownerOfCalls Sample.depositsCalls
              Sample.tokenOfOwnerByIndexCalls Sample.balanceOfCall
              Sample.useAllIncentives Sample.useDepositedTokenIds
              (Addr Sample.alice) _ sample_byOwner) as (n & Hn & _).
  exists n. exact Hn.
Defined.

Lemma balance_overflow_throws_witness :
  Degenerate.byOwner (Addr Sample.alice) = Throw NumericFault ∧
  Degenerate.forPool (Addr Sample.alice) (Some Sample.poolAB) = Throw NumericFault.
Proof.
  apply (balance_overflow_throws Sample.incentivePool Sample.LOADING
           Sample.positionsCalls Sample.ownerOfCalls Sample.depositsCalls
           Sample.tokenOfOwnerByIndexCalls Degenerate.hugeBalanceOfCall
           Sample.useAllIncentives Sample.useDepositedTokenIds
           (Addr Sample.alice) (Some Sample.poolAB) (UintResult.mk (2 ^ 53))).
  - reflexivity.
  - right. reflexivity.
Defined.

Lemma buckets_only_while_resolving_witness :
  ∃ n,
    accountBalance (CallState.result (Sample.balanceOfCall (Some Sample.alice)))
      = Return n ∧
    (DepositedTokenIds.state (Sample.useDepositedTokenIds (Addr Sample.alice))
       = Sample.LOADING ∨
     (∃ c, c ∈ Sample.tokenOfOwnerByIndexCalls (tokenIdsArgs (Addr Sample.alice) n) ∧
           CallState.loading c = true) ∨
     CallState.loading (Sample.balanceOfCall (Some Sample.alice)) = true) ∧
    AllIncentives.loading Sample.useAllIncentives = false.
Proof.
  apply (buckets_only_while_resolving Sample.incentivePool Sample.LOADING
           Sample.positionsCalls Sample.ownerOfCalls Sample.depositsCalls
           Sample.tokenOfOwnerByIndexCalls Sample.balanceOfCall
           Sample.useAllIncentives Sample.useDepositedTokenIds
           (Addr Sample.alice) (Some Sample.poolAB) _ sample_forPool).
  left. simpl. eexists. reflexivity.
Defined.

Lemma repeated_identifier_reported_twice_witness :
  ∃ ps1 ps2 ps3,
    [Sample.position1; Sample.position2; Sample.position1] =
    ps1 ++ Sample.position1 :: ps2 ++ Sample.position1 :: ps3.
Proof.
  apply (repeated_identifier_reported_twice Sample.incentivePool
           Sample.positionsCalls Sample.ownerOfCalls Sample.depositsCalls
           Sample.useAllIncentives
           Sample.positionsCall Sample.ownerOfCall Sample.depositsCall
           1 [] [2] []
           (UseV3PositionsResults.mk false false
              (Some [Sample.position1; Sample.position2; Sample.position1]))
           [Sample.position1; Sample.position2; Sample.position1] Sample.position1).
  - intros inputs. reflexivity.
  - intros inputs. reflexivity.
  - intros inputs. reflexivity.
  - exact sample_fromTokenIds_repeated.
  - reflexivity.
  - apply list_elem_of_In. simpl. left. reflexivity.
  - reflexivity.
Defined.
